(** * Generic copy / copy_n of thrust (thrust/detail/backend/generic/copy.inl)

    A shallow embedding of the two function templates of [copy.inl] and of
    the library contracts they consume, followed by the properties of the
    specification that were checked against them.

    Template parameters become implicit arguments: the execution space and
    the value type of an iterator are indices of its type.  Memory is one
    finite map from addresses to values of a domain [T], shared by all
    spaces and value types; a write through an iterator converts the value
    to the value type of that iterator.  A call is a function from the
    memory before the call to either a fault (undefined behaviour) or a
    returned value, the memory after the call and the list of element
    accesses it performed. *)

From stdpp Require Import gmap list.
From Stdlib Require Import ZArith Lia.

Local Open Scope Z_scope.

(** ** Execution spaces and their lattice *)

(** Modelled from the spec: the execution space tags (the headers that
    declare them are not part of the sources).  The data model names a
    sequential space, a parallel space and an unconstrained tag. *)
Inductive space_tag : Type :=
| any_space
| sequential_space
| parallel_space.

Definition known_spaces : list space_tag :=
  [any_space; sequential_space; parallel_space].

(** Modelled from the spec: the compatibility order of the space lattice
    ([thrust/iterator/detail/minimum_space.h] is missing).  [space_le a b]
    reads: data of space [a] can be handled by space [b].  The unconstrained
    tag is compatible with every space, and sequential data can be handled
    by the parallel space (the cross-space example of the spec resolves
    sequential and parallel to parallel). *)
Definition space_le (a b : space_tag) : bool :=
  match a, b with
  | any_space, _ => true
  | sequential_space, (sequential_space | parallel_space) => true
  | parallel_space, parallel_space => true
  | _, _ => false
  end.

Module Lattice.
Section LeastUpperBound.

Context {A : Type}.
Variable le : A -> A -> bool.
Variable universe : list A.

Definition upper_bound (a b c : A) : bool := le a c && le b c.

(** [c] is compatible with both [a] and [b], and is below every other
    space that is. *)
Definition least_upper_bound (a b c : A) : bool :=
  upper_bound a b c
  && forallb (fun d => implb (upper_bound a b d) (le c d)) universe.

(** [None] when the two arguments share no least common space. *)
Definition lub (a b : A) : option A :=
  find (least_upper_bound a b) universe.

End LeastUpperBound.
End Lattice.

(** Modelled from the spec: [minimum_space<A,B>::type], the least space
    compatible with both arguments, [None] standing for the build-time
    failure of the metafunction ([minimum_space.h] is missing). *)
Definition minimum_space (a b : space_tag) : option space_tag :=
  Lattice.lub space_le known_spaces a b.

Definition compatible (a b : space_tag) : Prop :=
  is_Some (minimum_space a b).

(** ** Value types *)

(** Memory cells hold values of one domain [T].  The value type of an
    iterator, [iterator_value<Iterator>::type], is named by a [value_type];
    [InputIterator] and [OutputIterator] are independent template
    parameters, so the two value types of a copy may differ.
    [convert from to x] is the implicit conversion of the language that the
    assignment [*result = x] applies to an [x] of value type [from] when
    [result] has value type [to]; between equal types nothing is
    converted. *)
Class ValueTypes (T : Type) : Type := {
  value_type : Type;
  convert : value_type -> value_type -> T -> T;
  convert_same : forall (t : value_type) (v : T), convert t t v = v
}.

(** ** Iterators *)

(** The tag of the generic backend, [thrust::detail::backend::generic::tag]. *)
Inductive tag : Type := generic_tag.

Section Iterators.

Context {T : Type} {VT : ValueTypes T}.

(** An iterator is a non-owning cursor: a position in memory.  Its execution
    space and its value type [value] are part of its type, as in the source,
    where [iterator_space] and [iterator_value] are metafunctions of the
    iterator type. *)
Record iterator (space : space_tag) (value : value_type) : Type :=
  Iterator { base : Z }.

Definition iterator_space {space : space_tag} {value : value_type}
  (_ : iterator space value) : space_tag :=
  space.

(** [it + k] *)
Definition advance {space : space_tag} {value : value_type}
  (it : iterator space value) (k : Z) : iterator space value :=
  Iterator space value (base space value it + k).

(** [last - first] *)
Definition distance {space : space_tag} {value : value_type}
  (first last : iterator space value) : Z :=
  base space value last - base space value first.

(** Modelled from the spec: the fused iterator of [thrust/iterator/zip_iterator.h]
    (missing) for the two constituents this layer uses.  It holds the
    constituents by value, advances them in lockstep, and its space is the
    lattice minimum of theirs. *)
Record zip_iterator (space1 : space_tag) (value1 : value_type)
                    (space2 : space_tag) (value2 : value_type) : Type :=
  ZipIterator {
    get_iterator_tuple : iterator space1 value1 * iterator space2 value2
  }.

End Iterators.

Arguments Iterator {T VT space value} _.
Arguments base {T VT space value} _.
Arguments ZipIterator {T VT space1 value1 space2 value2} _.
Arguments get_iterator_tuple {T VT space1 value1 space2 value2} _.

Section FusedIterators.

Context {T : Type} {VT : ValueTypes T}.
Context {space1 space2 : space_tag} {value1 value2 : value_type}.

Definition make_zip_iterator
  (t : iterator space1 value1 * iterator space2 value2)
  : zip_iterator space1 value1 space2 value2 :=
  ZipIterator t.

Definition zip_advance
  (z : zip_iterator space1 value1 space2 value2) (k : Z)
  : zip_iterator space1 value1 space2 value2 :=
  ZipIterator (advance (fst (get_iterator_tuple z)) k,
               advance (snd (get_iterator_tuple z)) k).

Definition zip_iterator_space
  (_ : zip_iterator space1 value1 space2 value2) : option space_tag :=
  minimum_space space1 space2.

End FusedIterators.

(** ** The Space argument of the functor selector *)

(** What a template can receive as its [Space] argument in [copy_n]: a space
    tag, or the class [minimum_space<space1,space2>] itself, whose nested
    [type] is the computed space. *)
Inductive space_argument : Type :=
| space_type (s : space_tag)
| minimum_space_class (space1 space2 : space_tag).

(** [Space::type], where the argument has one. *)
Definition nested_type (a : space_argument) : option space_tag :=
  match a with
  | space_type _ => None
  | minimum_space_class space1 space2 => minimum_space space1 space2
  end.

(** ** Memory, accesses and calls *)

Inductive access : Type :=
| Read (a : Z)
| Write (a : Z).

Definition is_write (e : access) : bool :=
  match e with Write _ => true | Read _ => false end.

(** Modelled from the spec: the physical execution order of the two consumed
    primitives ([thrust/transform.h] and [thrust/for_each.h] are missing).
    A backend may visit the [n] positions of a range in any order, each
    position exactly once; one position is processed at a time. *)
Record backend : Type := Backend {
  transform_order : nat -> list nat;
  for_each_n_order : nat -> list nat;
  transform_order_perm : forall n, transform_order n ≡ₚ seq 0 n;
  for_each_n_order_perm : forall n, for_each_n_order n ≡ₚ seq 0 n
}.

Section Model.

Context {T : Type} {VT : ValueTypes T}.

(** A call maps the memory to a fault ([None]: undefined behaviour, or a
    runtime failure of a primitive, which this layer propagates
    unchanged), or to its result, the new memory and its accesses. *)
Definition action (A : Type) : Type :=
  gmap Z T -> option (A * gmap Z T * list access).

Definition ret {A : Type} (a : A) : action A :=
  fun h => Some (a, h, []).

Definition bind {A B : Type} (m : action A) (k : A -> action B) : action B :=
  fun h =>
    match m h with
    | None => None
    | Some (a, h1, t1) =>
        match k a h1 with
        | None => None
        | Some (b, h2, t2) => Some (b, h2, t1 ++ t2)
        end
    end.

Definition fault {A : Type} : action A := fun _ => None.

(** [*p] as an rvalue: reading outside the allocated memory faults. *)
Definition load (p : Z) : action T :=
  fun h =>
    match h !! p with
    | Some v => Some (v, h, [Read p])
    | None => None
    end.

(** [*p = v]: writing outside the allocated memory faults. *)
Definition store (p : Z) (v : T) : action unit :=
  fun h =>
    match h !! p with
    | Some _ => Some (tt, <[p := v]> h, [Write p])
    | None => None
    end.

(** Runs [body k] for the positions [k] of [order], in that order. *)
Fixpoint visit (body : nat -> action unit) (order : list nat) : action unit :=
  match order with
  | [] => ret tt
  | k :: ks => bind (body k) (fun _ => visit body ks)
  end.

(** [thrust::identity<T>], for [T] the value type of the input iterator: it
    returns its argument, a value of that type, as it is. *)
Definition identity (x : T) : T := x.

(** Modelled from the spec: the per-space wrapper that
    [unary_transform_functor<Space,UnaryFunction>::type] of
    [thrust/detail/internal_functional.h] (missing) selects.  The wrapper
    is the shape required by the space it was selected for and keeps the
    functor's behaviour unchanged. *)
Record per_space_wrapper : Type := PerSpaceWrapper {
  selected_for : space_argument;
  wrapped : T -> T
}.

Definition unary_transform_functor (Space : space_argument) (f : T -> T)
  : per_space_wrapper :=
  PerSpaceWrapper Space f.

(** Modelled from the spec: a wrapper applied to the dereferenced fused
    iterator, a pair (input element, output slot): it writes the functor's
    value of the input into the output slot.  The write is an assignment
    through the output iterator, which converts the value, of the input's
    value type, to the output's. *)
Definition apply_wrapper {space1 space2 : space_tag} {value1 value2 : value_type}
  (w : per_space_wrapper) (z : zip_iterator space1 value1 space2 value2)
  : action unit :=
  bind (load (base (fst (get_iterator_tuple z))))
       (fun v => store (base (snd (get_iterator_tuple z)))
                       (convert value1 value2 (wrapped w v))).

Variable B : backend.

(** Modelled from the spec: [thrust::transform(first, last, result, op)]
    ([thrust/transform.h] is missing) applies [op] elementwise over
    [[first,last)], writing to [result], and returns [result] advanced by
    [last - first].  [op] maps the input's value type to itself here; the
    write converts its value to the output's value type.  A [last] before
    [first] delimits no range: the call is undefined, and nothing is stated
    of it. *)
Definition transform {space1 space2 : space_tag} {value1 value2 : value_type}
  (first last : iterator space1 value1) (result : iterator space2 value2)
  (op : T -> T)
  : action (iterator space2 value2) :=
  let n := distance first last in
  if decide (n < 0) then fault
  else
    bind (visit (fun k =>
                   bind (load (base (advance first (Z.of_nat k))))
                        (fun v => store (base (advance result (Z.of_nat k)))
                                        (convert value1 value2 (op v))))
                (transform_order B (Z.to_nat n)))
         (fun _ => ret (advance result n)).

(** Modelled from the spec: [thrust::for_each_n(it, n, f)]
    ([thrust/for_each.h] is missing) applies [f] to each of the next [n]
    positions of [it] and returns the position reached.  A negative [n]
    is undefined behaviour, and nothing is stated of it. *)
Definition for_each_n {space1 space2 : space_tag} {value1 value2 : value_type}
  (it : zip_iterator space1 value1 space2 value2) (n : Z)
  (f : per_space_wrapper)
  : action (zip_iterator space1 value1 space2 value2) :=
  if decide (n < 0) then fault
  else
    bind (visit (fun k => apply_wrapper f (zip_advance it (Z.of_nat k)))
                (for_each_n_order B (Z.to_nat n)))
         (fun _ => ret (zip_advance it n)).

(** *** copy.inl, lines 39-48 *)
Definition copy {space1 space2 : space_tag} {value1 value2 : value_type}
  (_ : tag)
  (first last : iterator space1 value1) (result : iterator space2 value2)
  : action (iterator space2 value2) :=
  transform first last result identity.

(** *** copy.inl, lines 51-75 *)

(** The typedef [space] of line 62.  The source names the class
    [minimum_space<space1,space2>], not its nested [type]. *)
Definition copy_n_space (space1 space2 : space_tag) : space_argument :=
  minimum_space_class space1 space2.

(** The typedefs [xfrm_type] and [functor_type] of lines 64-67, and the
    functor [functor_type(xfrm_type())] of line 74. *)
Definition copy_n_functor (space1 space2 : space_tag) : per_space_wrapper :=
  let space := copy_n_space space1 space2 in
  let xfrm_type := identity in
  let functor_type := unary_transform_functor space in
  functor_type xfrm_type.

Definition copy_n {InputSpace OutputSpace : space_tag}
  {value_type1 value_type2 : value_type} (_ : tag)
  (first : iterator InputSpace value_type1) (n : Z)
  (result : iterator OutputSpace value_type2)
  : action (iterator OutputSpace value_type2) :=
  let space1 := iterator_space first in
  let space2 := iterator_space result in
  let zipped := make_zip_iterator (first, result) in
  bind (for_each_n zipped n (copy_n_functor space1 space2))
       (fun reached => ret (snd (get_iterator_tuple reached))).

End Model.

Arguments action T A : clear implicits.
Arguments per_space_wrapper T : clear implicits.

(** ** Caller contract *)

Section Contract.

Context {T : Type} {VT : ValueTypes T}.

(** The finite sequence [S] is what memory [h] holds from [first] on. *)
Definition holds_sequence {space : space_tag} {value : value_type}
  (h : gmap Z T) (first : iterator space value) (S : list T) : Prop :=
  forall (k : nat) (v : T), S !! k = Some v -> h !! (base first + Z.of_nat k) = Some v.

(** [n] elements can be read from [first] on. *)
Definition readable {space : space_tag} {value : value_type}
  (h : gmap Z T) (first : iterator space value) (n : Z) : Prop :=
  forall k, 0 <= k < n -> is_Some (h !! (base first + k)).

(** A valid destination: [n] allocated slots from [result] on. *)
Definition valid_destination {space : space_tag} {value : value_type}
  (h : gmap Z T) (result : iterator space value) (n : Z) : Prop :=
  forall k, 0 <= k < n -> is_Some (h !! (base result + k)).

(** The destination range does not meet the source range. *)
Definition non_overlapping {space1 space2 : space_tag}
  {value1 value2 : value_type}
  (first : iterator space1 value1) (result : iterator space2 value2) (n : Z)
  : Prop :=
  forall j k, 0 <= j < n -> 0 <= k < n -> base first + k <> base result + j.

(** The constraint of the generic copy: the destination range overlaps the
    source range not at all, or as a true identity (an output slot that is
    also an input element is the input element of the same offset). *)
Definition order_independent {space1 space2 : space_tag}
  {value1 value2 : value_type}
  (first : iterator space1 value1) (result : iterator space2 value2) (n : Z)
  : Prop :=
  forall j k, 0 <= j < n -> 0 <= k < n ->
              base first + k = base result + j -> j = k.

(** Address [a] lies in the [n] slots from [it] on. *)
Definition in_range {space : space_tag} {value : value_type}
  (it : iterator space value) (n : Z) (a : Z) : Prop :=
  base it <= a < base it + n.

(** Memory [h'] is memory [h] after the [n] elements from [first] on were
    copied to the [n] slots from [result] on: every output slot of offset
    [k] holds what [h] held at the input offset [k], converted to the
    output's value type, and every address outside the destination range
    holds what it held in [h]. *)
Definition copied {space1 space2 : space_tag} {value1 value2 : value_type}
  (h h' : gmap Z T)
  (first : iterator space1 value1) (result : iterator space2 value2) (n : Z)
  : Prop :=
  (forall k, 0 <= k < n ->
     h' !! (base result + k) = convert value1 value2 <$> h !! (base first + k))
  /\ (forall a, ~ in_range result n a -> h' !! a = h !! a).

End Contract.

(** ** The step both primitives perform at position [k] *)

(** Read the element at offset [k] from [s], write [f] of it at offset [k]
    from [d]. *)
Definition element_copy {T : Type} (f : T -> T) (s d : Z) (k : nat)
  : action T unit :=
  bind (load (s + Z.of_nat k)) (fun v => store (d + Z.of_nat k) (f v)).

(** The accesses of [element_copy] at the positions of [order]. *)
Definition accesses_of (s d : Z) (order : list nat) : list access :=
  flat_map (fun k => [Read (s + Z.of_nat k); Write (d + Z.of_nat k)]) order.

(** The number of element writes in a list of accesses. *)
Definition count_writes (tr : list access) : nat :=
  length (List.filter is_write tr).

(** ** Two backends and a memory to run the functions on *)

Definition in_order_backend : backend :=
  Backend (fun n => seq 0 n) (fun n => seq 0 n)
          (fun n => Permutation_refl (seq 0 n))
          (fun n => Permutation_refl (seq 0 n)).

(** [transform] runs front to back, [for_each_n] back to front. *)
Definition mixed_backend : backend :=
  Backend (fun n => seq 0 n) (fun n => rev (seq 0 n))
          (fun n => Permutation_refl (seq 0 n))
          (fun n => Permutation_sym (Permutation_rev (seq 0 n))).

(** Two integer value types over the integers: [int] of 32 bits and
    [long long] of 64 bits.  Storing a [long long] into an [int] keeps the
    value modulo 2^32; the other conversions keep the value. *)
Inductive integer_type : Type :=
| int_type
| long_long_type.

Definition wrap (bits : Z) (v : Z) : Z :=
  (v + 2 ^ (bits - 1)) mod 2 ^ bits - 2 ^ (bits - 1).

Definition integer_convert (from to : integer_type) (v : Z) : Z :=
  match from, to with
  | long_long_type, int_type => wrap 32 v
  | _, _ => v
  end.

Definition integer_convert_same (t : integer_type) (v : Z)
  : integer_convert t t v = v :=
  match t with
  | int_type => eq_refl
  | long_long_type => eq_refl
  end.

#[global] Instance integer_types : ValueTypes Z := {|
  value_type := integer_type;
  convert := integer_convert;
  convert_same := integer_convert_same
|}.

(** Source [10,20,30,40] at addresses 0..3, a destination buffer of four
    slots at addresses 10..13, both of [long long]. *)
Definition sample_memory : gmap Z Z :=
  list_to_map [(0, 10); (1, 20); (2, 30); (3, 40);
               (10, 0); (11, 0); (12, 0); (13, 0)].

Definition sample_source
  : iterator (T := Z) sequential_space long_long_type := Iterator 0.
Definition sample_destination
  : iterator (T := Z) sequential_space long_long_type := Iterator 10.

(** The address of the source again, as an iterator of the parallel space. *)
Definition sample_alias
  : iterator (T := Z) parallel_space long_long_type := Iterator 0.

(** One [long long] element, 2^32 + 5, at address 0 and one [int] slot at
    address 10. *)
Definition wide_memory : gmap Z Z :=
  list_to_map [(0, 4294967301); (10, 0)].

Definition wide_source
  : iterator (T := Z) sequential_space long_long_type := Iterator 0.
Definition int_destination
  : iterator (T := Z) sequential_space int_type := Iterator 10.

(** * Properties *)

(** ** The space lattice *)

Section LeastUpperBoundFacts.

Context {A : Type}.
Variable le : A -> A -> bool.
Variable universe : list A.

Hypothesis le_refl : forall a, le a a = true.
Hypothesis le_antisym : forall a b, le a b = true -> le b a = true -> a = b.
Hypothesis universe_complete : forall a, In a universe.

Lemma upper_bound_comm (a b c : A) :
  Lattice.upper_bound le a b c = Lattice.upper_bound le b a c.
Proof. unfold Lattice.upper_bound. apply andb_comm. Qed.

Lemma least_upper_bound_comm (a b c : A) :
  Lattice.least_upper_bound le universe a b c
  = Lattice.least_upper_bound le universe b a c.
Proof.
  unfold Lattice.least_upper_bound.
  rewrite (upper_bound_comm a b c). f_equal.
  generalize universe. intros l.
  induction l as [|d l IH]; simpl; [reflexivity|].
  now rewrite (upper_bound_comm a b d), IH.
Qed.

Lemma lub_comm (a b : A) :
  Lattice.lub le universe a b = Lattice.lub le universe b a.
Proof.
  unfold Lattice.lub.
  generalize universe at 2 4. intros l.
  induction l as [|x l IH]; simpl; [reflexivity|].
  rewrite least_upper_bound_comm, IH. reflexivity.
Qed.

Lemma least_upper_bound_elim (a b c : A) :
  Lattice.least_upper_bound le universe a b c = true ->
  Lattice.upper_bound le a b c = true
  /\ forall d, Lattice.upper_bound le a b d = true -> le c d = true.
Proof.
  unfold Lattice.least_upper_bound. intros [Hub Hall]%andb_prop.
  split; [exact Hub|]. intros d Hd.
  rewrite forallb_forall in Hall.
  specialize (Hall d (universe_complete d)).
  rewrite Hd in Hall. exact Hall.
Qed.

Lemma least_upper_bound_unique (a b c d : A) :
  Lattice.least_upper_bound le universe a b c = true ->
  Lattice.least_upper_bound le universe a b d = true ->
  c = d.
Proof.
  intros [Hc Hcmin]%least_upper_bound_elim [Hd Hdmin]%least_upper_bound_elim.
  apply le_antisym; auto.
Qed.

Lemma least_upper_bound_self (a : A) :
  Lattice.least_upper_bound le universe a a a = true.
Proof.
  unfold Lattice.least_upper_bound, Lattice.upper_bound.
  rewrite le_refl. simpl.
  apply forallb_forall. intros d _. now destruct (le a d).
Qed.

Lemma lub_idem (a : A) : Lattice.lub le universe a a = Some a.
Proof.
  unfold Lattice.lub.
  destruct (find _ universe) as [x|] eqn:Hfind.
  - apply find_some in Hfind as [_ Hx].
    f_equal. eapply least_upper_bound_unique; [exact Hx|].
    apply least_upper_bound_self.
  - eapply find_none in Hfind; [|apply (universe_complete a)].
    now rewrite least_upper_bound_self in Hfind.
Qed.

End LeastUpperBoundFacts.

Lemma space_le_refl (a : space_tag) : space_le a a = true.
Proof. now destruct a. Qed.

Lemma space_le_antisym (a b : space_tag) :
  space_le a b = true -> space_le b a = true -> a = b.
Proof. destruct a, b; simpl; congruence. Qed.

Lemma known_spaces_complete (a : space_tag) : In a known_spaces.
Proof. destruct a; simpl; auto. Qed.

Lemma minimum_space_comm (a b : space_tag) :
  minimum_space a b = minimum_space b a.
Proof. apply lub_comm. Qed.

(** C7: the space lattice operation is idempotent, [minimum_space(A, A)] is
    [A] for every known execution space tag [A]; copying within a single
    space resolves to that space. *)
Theorem minimum_space_idempotent (a : space_tag) :
  minimum_space a a = Some a.
Proof.
  apply lub_idem.
  - exact space_le_refl.
  - exact space_le_antisym.
  - exact known_spaces_complete.
Qed.

(** C8: the space lattice operation is symmetric: for every pair of known,
    compatible execution space tags [A] and [B], [minimum_space(A, B)] and
    [minimum_space(B, A)] resolve, and to the same space. *)
Theorem minimum_space_symmetric (a b : space_tag) :
  compatible a b ->
  exists c, minimum_space a b = Some c /\ minimum_space b a = Some c.
Proof.
  intros [c Hc]. exists c. split; [exact Hc|].
  rewrite <- minimum_space_comm. exact Hc.
Qed.

Lemma minimum_space_symmetric_witness :
  compatible sequential_space parallel_space
  /\ exists c, minimum_space sequential_space parallel_space = Some c
               /\ minimum_space parallel_space sequential_space = Some c.
Proof.
  assert (H : compatible sequential_space parallel_space)
    by (exists parallel_space; reflexivity).
  split; [exact H|].
  exact (minimum_space_symmetric sequential_space parallel_space H).
Defined.

(** ** Running the primitives *)

Section Runs.

Context {T : Type}.
Implicit Types (h : gmap Z T) (f : T -> T) (s d : Z) (ks : list nat).

Lemma element_copy_run f s d (k : nat) h (v : T) :
  h !! (s + Z.of_nat k) = Some v ->
  is_Some (h !! (d + Z.of_nat k)) ->
  element_copy f s d k h
  = Some (tt, <[d + Z.of_nat k := f v]> h,
          [Read (s + Z.of_nat k); Write (d + Z.of_nat k)]).
Proof.
  intros Hs [w Hw]. unfold element_copy, bind, load, store.
  rewrite Hs, Hw. reflexivity.
Qed.

(** The invariant of a run over distinct positions below [n]: the visited
    output slots hold [f] of the input elements of the same offset, as they
    were before the run; nothing else changes. *)
Lemma visit_invariant f s d (n : nat) ks :
  (forall j k : nat, (j < n)%nat -> (k < n)%nat ->
                     s + Z.of_nat k = d + Z.of_nat j -> j = k) ->
  forall h,
  NoDup ks ->
  (forall k, k ∈ ks -> (k < n)%nat) ->
  (forall k : nat, (k < n)%nat -> is_Some (h !! (s + Z.of_nat k))) ->
  (forall k : nat, (k < n)%nat -> is_Some (h !! (d + Z.of_nat k))) ->
  exists h',
    visit (element_copy f s d) ks h = Some (tt, h', accesses_of s d ks)
    /\ (forall k, k ∈ ks -> h' !! (d + Z.of_nat k) = f <$> h !! (s + Z.of_nat k))
    /\ (forall a, (forall k, k ∈ ks -> a <> d + Z.of_nat k) -> h' !! a = h !! a).
Proof.
  intros Hov. induction ks as [|k ks IH]; intros h Hnd Hlt Hsrc Hdst.
  - exists h. split; [reflexivity|]. split; [|reflexivity].
    intros k Hk. now apply elem_of_nil in Hk.
  - apply NoDup_cons in Hnd as [Hk Hnd].
    assert (Hkn : (k < n)%nat) by (apply Hlt; left).
    destruct (Hsrc k Hkn) as [v Hv].
    destruct (IH (<[d + Z.of_nat k := f v]> h)) as (h' & Hrun & Hcopied & Hframe).
    + exact Hnd.
    + intros k' Hk'. apply Hlt. now right.
    + intros k' Hk'. apply lookup_insert_is_Some'. right. now apply Hsrc.
    + intros k' Hk'. apply lookup_insert_is_Some'. right. now apply Hdst.
    + exists h'. split; [|split].
      * simpl. unfold bind at 1.
        rewrite (element_copy_run f s d k h v Hv (Hdst k Hkn)).
        rewrite Hrun. reflexivity.
      * intros k' [->|Hk']%elem_of_cons.
        -- rewrite Hframe, lookup_insert_eq, Hv; [reflexivity|].
           intros j Hj Heq. assert (j = k) by lia. now subst.
        -- rewrite (Hcopied k' Hk'). f_equal.
           apply lookup_insert_ne. intros Heq.
           assert (Hk'n : (k' < n)%nat) by (apply Hlt; now right).
           assert (k = k') by (apply Hov; [exact Hkn|exact Hk'n|lia]).
           now subst.
      * intros a Ha. rewrite Hframe.
        -- apply lookup_insert_ne. intros Heq. apply (Ha k); [left|now symmetry].
        -- intros j Hj. apply Ha. now right.
Qed.

(** Whatever the overlap and the order, a run over allocated elements and
    slots completes, and changes no address other than the visited output
    slots. *)
Lemma visit_frame f s d ks :
  forall h,
  (forall k, k ∈ ks -> is_Some (h !! (s + Z.of_nat k))) ->
  (forall k, k ∈ ks -> is_Some (h !! (d + Z.of_nat k))) ->
  exists h',
    visit (element_copy f s d) ks h = Some (tt, h', accesses_of s d ks)
    /\ (forall a, (forall k, k ∈ ks -> a <> d + Z.of_nat k) -> h' !! a = h !! a).
Proof.
  induction ks as [|k ks IH]; intros h Hsrc Hdst.
  - exists h. split; reflexivity.
  - destruct (Hsrc k) as [v Hv]; [left|].
    destruct (IH (<[d + Z.of_nat k := f v]> h)) as (h' & Hrun & Hframe).
    + intros k' Hk'. apply lookup_insert_is_Some'. right. apply Hsrc. now right.
    + intros k' Hk'. apply lookup_insert_is_Some'. right. apply Hdst. now right.
    + exists h'. split.
      * simpl. unfold bind at 1.
        rewrite (element_copy_run f s d k h v Hv); [|apply Hdst; left].
        rewrite Hrun. reflexivity.
      * intros a Ha. rewrite Hframe.
        -- apply lookup_insert_ne. intros Heq. apply (Ha k); [left|now symmetry].
        -- intros j Hj. apply Ha. now right.
Qed.

Lemma visit_range_frame f s d (n : Z) ks h :
  ks ≡ₚ seq 0 (Z.to_nat n) ->
  (forall k, 0 <= k < n -> is_Some (h !! (s + k))) ->
  (forall k, 0 <= k < n -> is_Some (h !! (d + k))) ->
  exists h',
    visit (element_copy f s d) ks h = Some (tt, h', accesses_of s d ks)
    /\ (forall a, ~ (d <= a < d + n) -> h' !! a = h !! a).
Proof.
  intros Hperm Hsrc Hdst.
  assert (Hin : forall k : nat, k ∈ ks -> (k < Z.to_nat n)%nat).
  { intros k. rewrite Hperm, elem_of_seq. lia. }
  destruct (visit_frame f s d ks h) as (h' & Hrun & Hframe).
  - intros k Hk%Hin. apply Hsrc. lia.
  - intros k Hk%Hin. apply Hdst. lia.
  - exists h'. split; [exact Hrun|].
    intros a Ha. apply Hframe. intros k Hk%Hin Heq. lia.
Qed.

(** The invariant for a whole range of [n] positions, visited in any order. *)
Lemma visit_range f s d (n : Z) ks h :
  ks ≡ₚ seq 0 (Z.to_nat n) ->
  (forall k, 0 <= k < n -> is_Some (h !! (s + k))) ->
  (forall k, 0 <= k < n -> is_Some (h !! (d + k))) ->
  (forall j k, 0 <= j < n -> 0 <= k < n -> s + k = d + j -> j = k) ->
  exists h',
    visit (element_copy f s d) ks h = Some (tt, h', accesses_of s d ks)
    /\ (forall k, 0 <= k < n -> h' !! (d + k) = f <$> h !! (s + k))
    /\ (forall a, ~ (d <= a < d + n) -> h' !! a = h !! a).
Proof.
  intros Hperm Hsrc Hdst Hov.
  assert (Hin : forall k : nat, k ∈ ks <-> (k < Z.to_nat n)%nat).
  { intros k. rewrite Hperm, elem_of_seq. lia. }
  destruct (visit_invariant f s d (Z.to_nat n) ks) with (h := h)
    as (h' & Hrun & Hcopied & Hframe).
  - intros j k Hj Hk Heq.
    apply Nat2Z.inj. apply Hov; lia.
  - rewrite Hperm. apply NoDup_seq.
  - intros k Hk. now apply Hin.
  - intros k Hk. apply Hsrc. lia.
  - intros k Hk. apply Hdst. lia.
  - exists h'. split; [exact Hrun|]. split.
    + intros k Hk. specialize (Hcopied (Z.to_nat k)).
      rewrite Z2Nat.id in Hcopied by lia.
      apply Hcopied, Hin. lia.
    + intros a Ha. apply Hframe. intros k Hk%Hin Heq. lia.
Qed.

(** Two memories that both are the result of the same copy are equal. *)
Lemma copied_unique {VT : ValueTypes T}
  {space1 space2 : space_tag} {value1 value2 : value_type} h h1 h2
  (first : iterator space1 value1) (result : iterator space2 value2) (n : Z) :
  copied h h1 first result n -> copied h h2 first result n -> h1 = h2.
Proof.
  intros [Hc1 Hf1] [Hc2 Hf2]. apply map_eq. intros a.
  destruct (decide (in_range result n a)) as [Hin|Hout].
  - unfold in_range in Hin.
    replace a with (base result + (a - base result)) by lia.
    rewrite Hc1, Hc2 by lia. reflexivity.
  - rewrite Hf1, Hf2 by exact Hout. reflexivity.
Qed.

Lemma accesses_of_writes s d ks :
  count_writes (accesses_of s d ks) = length ks.
Proof.
  unfold count_writes, accesses_of.
  induction ks as [|k ks IH]; simpl; [reflexivity|].
  now rewrite IH.
Qed.

Lemma accesses_of_visited s d ks (k : nat) :
  k ∈ ks ->
  Read (s + Z.of_nat k) ∈ accesses_of s d ks
  /\ Write (d + Z.of_nat k) ∈ accesses_of s d ks.
Proof.
  unfold accesses_of. induction ks as [|j ks IH]; simpl.
  - intros H. now apply elem_of_nil in H.
  - intros [->|H]%elem_of_cons.
    + split; [left|right; left].
    + destruct (IH H) as [Hr Hw]. split; right; right; assumption.
Qed.

Lemma accesses_of_write s d ks (a : Z) :
  Write a ∈ accesses_of s d ks -> exists k, k ∈ ks /\ a = d + Z.of_nat k.
Proof.
  unfold accesses_of. induction ks as [|k ks IH]; simpl.
  - intros H. now apply elem_of_nil in H.
  - intros [H|[H|H]%elem_of_cons]%elem_of_cons.
    + discriminate H.
    + injection H as ->. exists k. split; [left|reflexivity].
    + destruct (IH H) as (j & Hj & ->). exists j. split; [now right|reflexivity].
Qed.

Lemma accesses_of_read s d ks (a : Z) :
  Read a ∈ accesses_of s d ks -> exists k, k ∈ ks /\ a = s + Z.of_nat k.
Proof.
  unfold accesses_of. induction ks as [|k ks IH]; simpl.
  - intros H. now apply elem_of_nil in H.
  - intros [H|[H|H]%elem_of_cons]%elem_of_cons.
    + injection H as ->. exists k. split; [left|reflexivity].
    + discriminate H.
    + destruct (IH H) as (j & Hj & ->). exists j. split; [now right|reflexivity].
Qed.

End Runs.

(** ** copy and copy_n on a backend *)

Lemma advance_0 {T : Type} {VT : ValueTypes T}
  {space : space_tag} {value : value_type} (it : iterator space value) : advance it 0 = it.
Proof. destruct it as [p]. unfold advance. simpl. f_equal. lia. Qed.

Lemma distance_advance {T : Type} {VT : ValueTypes T}
  {space : space_tag} {value : value_type} (it : iterator space value) (n : Z) :
  distance it (advance it n) = n.
Proof. unfold distance, advance. simpl. lia. Qed.

Lemma order_of_empty_range (order : list nat) : order ≡ₚ seq 0 0 -> order = [].
Proof. simpl. apply Permutation_nil_r. Qed.

Lemma non_overlapping_order_independent {T : Type} {VT : ValueTypes T}
  {space1 space2 : space_tag} {value1 value2 : value_type}
  (first : iterator space1 value1) (result : iterator space2 value2) (n : Z) :
  non_overlapping first result n -> order_independent first result n.
Proof. intros H j k Hj Hk Heq. now destruct (H j k Hj Hk). Qed.

(** Closes a goal on [copy] or [copy_n] once the run of the element step is
    known. *)
Ltac finish_run Hunfold Hrun :=
  rewrite Hunfold by assumption; unfold bind, ret;
  rewrite Hrun, ?app_nil_r; reflexivity.

Section CopyFacts.

Context {T : Type} {VT : ValueTypes T}.
Variable B : backend.
Context {space1 space2 : space_tag} {value1 value2 : value_type}.
Implicit Types (h : gmap Z T) (tg : tag).
Implicit Types (first : iterator space1 value1) (result : iterator space2 value2).

(** [copy] is one run of the element step over the order [transform] takes. *)
Lemma copy_unfold tg first result (n : Z) h :
  0 <= n ->
  copy B tg first (advance first n) result h
  = bind (visit (element_copy (fun v => convert value1 value2 (identity v))
                              (base first) (base result))
                (transform_order B (Z.to_nat n)))
         (fun _ => ret (advance result n)) h.
Proof.
  intros Hn. unfold copy, transform.
  rewrite distance_advance.
  destruct (decide (n < 0)) as [Hneg|_]; [lia|]. reflexivity.
Qed.

(** [copy_n] is one run of the element step over the order [for_each_n]
    takes. *)
Lemma copy_n_unfold tg first result (n : Z) h :
  0 <= n ->
  copy_n B tg first n result h
  = bind (bind (visit (element_copy (fun v => convert value1 value2 (identity v))
                                    (base first) (base result))
                      (for_each_n_order B (Z.to_nat n)))
               (fun _ => ret (zip_advance (make_zip_iterator (first, result)) n)))
         (fun reached => ret (snd (get_iterator_tuple reached))) h.
Proof.
  intros Hn. unfold copy_n, for_each_n.
  destruct (decide (n < 0)) as [Hneg|_]; [lia|]. reflexivity.
Qed.

Lemma copy_completes tg first result (n : Z) h :
  0 <= n ->
  readable h first n ->
  valid_destination h result n ->
  exists h',
    copy B tg first (advance first n) result h
    = Some (advance result n, h',
            accesses_of (base first) (base result) (transform_order B (Z.to_nat n)))
    /\ (forall a, ~ in_range result n a -> h' !! a = h !! a).
Proof.
  intros Hn Hsrc Hdst.
  destruct (visit_range_frame (fun v => convert value1 value2 (identity v)) (base first) (base result) n
              (transform_order B (Z.to_nat n)) h
              (transform_order_perm B _) Hsrc Hdst) as (h' & Hrun & Hframe).
  exists h'. split; [|exact Hframe].
  finish_run copy_unfold Hrun.
Qed.

Lemma copy_n_completes tg first result (n : Z) h :
  0 <= n ->
  readable h first n ->
  valid_destination h result n ->
  exists h',
    copy_n B tg first n result h
    = Some (advance result n, h',
            accesses_of (base first) (base result) (for_each_n_order B (Z.to_nat n)))
    /\ (forall a, ~ in_range result n a -> h' !! a = h !! a).
Proof.
  intros Hn Hsrc Hdst.
  destruct (visit_range_frame (fun v => convert value1 value2 (identity v)) (base first) (base result) n
              (for_each_n_order B (Z.to_nat n)) h
              (for_each_n_order_perm B _) Hsrc Hdst) as (h' & Hrun & Hframe).
  exists h'. split; [|exact Hframe].
  finish_run copy_n_unfold Hrun.
Qed.

Lemma copy_copies tg first result (n : Z) h :
  0 <= n ->
  readable h first n ->
  valid_destination h result n ->
  order_independent first result n ->
  exists h' tr,
    copy B tg first (advance first n) result h = Some (advance result n, h', tr)
    /\ copied h h' first result n.
Proof.
  intros Hn Hsrc Hdst Hov.
  destruct (visit_range (fun v => convert value1 value2 (identity v)) (base first) (base result) n
              (transform_order B (Z.to_nat n)) h
              (transform_order_perm B _) Hsrc Hdst Hov)
    as (h' & Hrun & Hcopied & Hframe).
  exists h', (accesses_of (base first) (base result) (transform_order B (Z.to_nat n))).
  split.
  - finish_run copy_unfold Hrun.
  - split.
    + exact Hcopied.
    + exact Hframe.
Qed.

Lemma copy_n_copies tg first result (n : Z) h :
  0 <= n ->
  readable h first n ->
  valid_destination h result n ->
  order_independent first result n ->
  exists h' tr,
    copy_n B tg first n result h = Some (advance result n, h', tr)
    /\ copied h h' first result n.
Proof.
  intros Hn Hsrc Hdst Hov.
  destruct (visit_range (fun v => convert value1 value2 (identity v)) (base first) (base result) n
              (for_each_n_order B (Z.to_nat n)) h
              (for_each_n_order_perm B _) Hsrc Hdst Hov)
    as (h' & Hrun & Hcopied & Hframe).
  exists h', (accesses_of (base first) (base result) (for_each_n_order B (Z.to_nat n))).
  split.
  - finish_run copy_n_unfold Hrun.
  - split.
    + exact Hcopied.
    + exact Hframe.
Qed.

Lemma holds_sequence_readable h first (S : list T) (n : Z) :
  holds_sequence h first S -> n <= Z.of_nat (length S) -> readable h first n.
Proof.
  intros HS Hn k Hk.
  destruct (lookup_lt_is_Some_2 S (Z.to_nat k)) as [v Hv]; [lia|].
  exists v. specialize (HS _ _ Hv). now rewrite Z2Nat.id in HS by lia.
Qed.

End CopyFacts.

(** ** The sample memory satisfies the caller contract *)

Lemma sample_holds_sequence :
  holds_sequence sample_memory sample_source [10; 20; 30; 40].
Proof.
  intros k v Hk.
  destruct k as [|[|[|[|k]]]]; simpl in Hk; try discriminate;
    injection Hk as <-; reflexivity.
Qed.

Lemma sample_readable (n : Z) :
  n <= 4 -> readable sample_memory sample_source n.
Proof.
  intros Hn. apply (holds_sequence_readable _ _ [10; 20; 30; 40]).
  - exact sample_holds_sequence.
  - simpl. lia.
Qed.

Lemma sample_valid_destination (n : Z) :
  n <= 4 -> valid_destination sample_memory sample_destination n.
Proof.
  intros Hn k Hk.
  assert (Hcases : k = 0 \/ k = 1 \/ k = 2 \/ k = 3) by lia.
  destruct Hcases as [-> | [-> | [-> | ->]]]; eexists; reflexivity.
Qed.

Lemma sample_non_overlapping (n : Z) :
  n <= 4 -> non_overlapping sample_source sample_destination n.
Proof. intros Hn j k Hj Hk. simpl. lia. Qed.

(** ** The claims of the specification *)

Section Claims.

Context {T : Type} {VT : ValueTypes T}.
Variable B : backend.
Context {space1 space2 : space_tag} {value1 value2 : value_type}.
Implicit Types (h : gmap Z T) (tg : tag).
Implicit Types (first : iterator space1 value1) (result : iterator space2 value2).

(** C1, amended: for every finite input sequence [S] and every valid
    non-overlapping destination, [copy(tag, S.begin, S.end, D)] returns [D]
    advanced by [len(S)] and writes, for every offset [0 <= k < len(S)],
    [S[k]] converted to the value type of the destination into [D[k]]; so
    [D[k] == S[k]] wherever that conversion keeps [S[k]], as it does for
    every element when the two value types are equal. *)
Theorem copy_elementwise_identity tg first result (S : list T) h :
  holds_sequence h first S ->
  valid_destination h result (Z.of_nat (length S)) ->
  non_overlapping first result (Z.of_nat (length S)) ->
  exists h' tr,
    copy B tg first (advance first (Z.of_nat (length S))) result h
    = Some (advance result (Z.of_nat (length S)), h', tr)
    /\ (forall (k : nat) (v : T),
          S !! k = Some v ->
          h' !! (base result + Z.of_nat k) = Some (convert value1 value2 v))
    /\ (forall (k : nat) (v : T),
          S !! k = Some v -> convert value1 value2 v = v ->
          h' !! (base result + Z.of_nat k) = Some v).
Proof.
  intros HS Hdst Hov.
  destruct (copy_copies B tg first result (Z.of_nat (length S)) h)
    as (h' & tr & Hrun & Hcopied & _).
  - lia.
  - apply (holds_sequence_readable _ _ S); [exact HS|lia].
  - exact Hdst.
  - now apply non_overlapping_order_independent.
  - assert (Hconv : forall (k : nat) (v : T),
               S !! k = Some v ->
               h' !! (base result + Z.of_nat k) = Some (convert value1 value2 v)).
    { intros k v Hk. rewrite Hcopied.
      - now rewrite (HS k v Hk).
      - apply lookup_lt_Some in Hk. lia. }
    exists h', tr. split; [exact Hrun|]. split; [exact Hconv|].
    intros k v Hk Hkeep. rewrite (Hconv k v Hk). now rewrite Hkeep.
Qed.

(** C2: for every sequence [S], every count [n] with [0 <= n <= len(S)] and
    every valid destination, [copy_n(tag, S.begin, n, D)] produces the same
    written destination elements and the same returned iterator as
    [copy(tag, S.begin, S.begin+n, D)]. *)
Theorem copy_n_count_equivalence tg first result (S : list T) (n : Z) h :
  holds_sequence h first S ->
  0 <= n <= Z.of_nat (length S) ->
  valid_destination h result n ->
  order_independent first result n ->
  exists it h' tr1 tr2,
    copy_n B tg first n result h = Some (it, h', tr1)
    /\ copy B tg first (advance first n) result h = Some (it, h', tr2).
Proof.
  intros HS [Hn0 Hn] Hdst Hov.
  pose proof (holds_sequence_readable h first S n HS Hn) as Hsrc.
  destruct (copy_n_copies B tg first result n h Hn0 Hsrc Hdst Hov)
    as (h1 & tr1 & Hrun1 & Hcopied1).
  destruct (copy_copies B tg first result n h Hn0 Hsrc Hdst Hov)
    as (h2 & tr2 & Hrun2 & Hcopied2).
  exists (advance result n), h1, tr1, tr2. split; [exact Hrun1|].
  now rewrite (copied_unique h h1 h2 first result n Hcopied1 Hcopied2).
Qed.

(** C4: for every non-negative [n] and valid destination, the iterator
    returned by [copy_n(tag, first, n, result)] is [result] advanced by
    exactly [n] positions, one past the last slot written. *)
Theorem copy_n_returns_advanced tg first result (n : Z) h :
  0 <= n ->
  readable h first n ->
  valid_destination h result n ->
  exists h' tr,
    copy_n B tg first n result h = Some (advance result n, h', tr).
Proof.
  intros Hn Hsrc Hdst.
  destruct (copy_n_completes B tg first result n h Hn Hsrc Hdst)
    as (h' & Hrun & _).
  eauto.
Qed.

(** C5, amended: [copy(tag, first, last, result)] writes exactly
    [last - first] elements, all within the destination range
    [[result, result + (last-first))]; it performs no writes outside the
    destination range and no reads outside the source range [[first, last)];
    every memory location outside the destination range, including the
    source sequence when disjoint, is left unchanged.  Every slot of the
    destination range is written. *)
Theorem copy_frame tg first result (n : Z) h :
  0 <= n ->
  readable h first n ->
  valid_destination h result n ->
  exists h' tr,
    copy B tg first (advance first n) result h = Some (advance result n, h', tr)
    /\ count_writes tr = Z.to_nat n
    /\ (forall k, 0 <= k < n -> Write (base result + k) ∈ tr)
    /\ (forall a, Write a ∈ tr -> in_range result n a)
    /\ (forall a, Read a ∈ tr -> in_range first n a)
    /\ (forall a, ~ in_range result n a -> h' !! a = h !! a)
    /\ (non_overlapping first result n ->
        forall k, 0 <= k < n -> h' !! (base first + k) = h !! (base first + k)).
Proof.
  intros Hn Hsrc Hdst.
  destruct (copy_completes B tg first result n h Hn Hsrc Hdst)
    as (h' & Hrun & Hframe).
  pose proof (transform_order_perm B (Z.to_nat n)) as Hperm.
  assert (Hin : forall k : nat,
             k ∈ transform_order B (Z.to_nat n) <-> (k < Z.to_nat n)%nat).
  { intros k. rewrite Hperm, elem_of_seq. lia. }
  eexists h', _. split; [exact Hrun|].
  split; [|split; [|split; [|split; [|split]]]].
  - rewrite accesses_of_writes, Hperm. apply length_seq.
  - intros k Hk.
    replace k with (Z.of_nat (Z.to_nat k)) by lia.
    apply accesses_of_visited, Hin. lia.
  - intros a (k & Hk%Hin & ->)%accesses_of_write. unfold in_range. lia.
  - intros a (k & Hk%Hin & ->)%accesses_of_read. unfold in_range. lia.
  - exact Hframe.
  - intros Hov k Hk. apply Hframe. unfold in_range. intros Hr.
    apply (Hov (base first + k - base result) k); lia.
Qed.

(** C6: for every iterator [first] and every destination [result], the
    zero-length call [copy(tag, first, first, result)] returns [result]
    itself and touches no elements: the memory is unchanged and no element
    is read or written. *)
Theorem copy_zero_length tg first result h :
  copy B tg first first result h = Some (result, h, []).
Proof.
  unfold copy, transform.
  replace (distance first first) with 0 by (unfold distance; lia).
  destruct (decide (0 < 0)) as [Hneg|_]; [lia|].
  change (Z.to_nat 0) with 0%nat.
  rewrite (order_of_empty_range _ (transform_order_perm B 0)).
  unfold bind, ret. simpl. now rewrite advance_0.
Qed.

(** C10: for every iterator [first] and every destination [result],
    [copy_n(tag, first, 0, result)] returns [result] unchanged and writes
    no elements. *)
Theorem copy_n_zero_count tg first result h :
  copy_n B tg first 0 result h = Some (result, h, []).
Proof.
  unfold copy_n, for_each_n.
  destruct (decide (0 < 0)) as [Hneg|_]; [lia|].
  change (Z.to_nat 0) with 0%nat.
  rewrite (order_of_empty_range _ (for_each_n_order_perm B 0)).
  unfold bind, ret. simpl. now rewrite advance_0.
Qed.

End Claims.

Lemma known_spaces_compatible (a b : space_tag) : compatible a b.
Proof. destruct a, b; eexists; reflexivity. Qed.

(** C9: [copy] and [copy_n] are deterministic.  Runs on equal inputs resolve
    to one execution space and, whatever the physical execution order each
    backend chooses, produce the same memory and the same returned
    iterator. *)
Theorem copy_deterministic {T : Type} {VT : ValueTypes T}
  {space1 space2 : space_tag} {value1 value2 : value_type} (tg : tag)
  (first : iterator space1 value1) (result : iterator space2 value2) (n : Z) (h : gmap Z T) :
  0 <= n ->
  readable h first n ->
  valid_destination h result n ->
  order_independent first result n ->
  exists sp it h',
    zip_iterator_space (make_zip_iterator (first, result)) = Some sp
    /\ (forall B, exists tr, copy_n B tg first n result h = Some (it, h', tr))
    /\ (forall B, exists tr,
           copy B tg first (advance first n) result h = Some (it, h', tr)).
Proof.
  intros Hn Hsrc Hdst Hov.
  destruct (known_spaces_compatible space1 space2) as [sp Hsp].
  destruct (copy_copies in_order_backend tg first result n h Hn Hsrc Hdst Hov)
    as (h0 & tr0 & _ & Hcopied0).
  exists sp, (advance result n), h0. split; [exact Hsp|]. split; intros B.
  - destruct (copy_n_copies B tg first result n h Hn Hsrc Hdst Hov)
      as (h' & tr & Hrun & Hcopied).
    exists tr. now rewrite (copied_unique h h0 h' first result n Hcopied0 Hcopied).
  - destruct (copy_copies B tg first result n h Hn Hsrc Hdst Hov)
      as (h' & tr & Hrun & Hcopied).
    exists tr. now rewrite (copied_unique h h0 h' first result n Hcopied0 Hcopied).
Qed.

(** C3 on the code: the wrapper [copy_n] hands to [for_each_n] is selected
    for the class [minimum_space<space1,space2>] and for no space tag, so
    not for the computed minimum space, the nested type of that class; the
    other steps are as the claim lists them. *)
Theorem copy_n_functor_selection {T : Type} {VT : ValueTypes T} (B : backend)
  {space1 space2 : space_tag} {value1 value2 : value_type} (tg : tag)
  (first : iterator space1 value1) (n : Z) (result : iterator space2 value2) :
  copy_n (T := T) B tg first n result
  = bind (for_each_n B (make_zip_iterator (first, result)) n
            (copy_n_functor space1 space2))
         (fun reached => ret (snd (get_iterator_tuple reached)))
  /\ wrapped (copy_n_functor (T := T) space1 space2) = identity
  /\ selected_for (copy_n_functor (T := T) space1 space2)
     = minimum_space_class space1 space2
  /\ nested_type (minimum_space_class space1 space2) = minimum_space space1 space2
  /\ forall sp : space_tag,
       selected_for (copy_n_functor (T := T) space1 space2) <> space_type sp.
Proof.
  split; [reflexivity|]. split; [reflexivity|]. split; [reflexivity|].
  split; [reflexivity|]. intros sp. simpl. discriminate.
Qed.

(** ** The scenarios of the specification, run *)

(** [copy_n] of two elements of [10,20,30,40]: the first two slots of the
    destination become [10,20], the third slot is untouched and the returned
    iterator points to it. *)
Example copy_n_scenario :
  exists h' tr,
    copy_n mixed_backend generic_tag sample_source 2 sample_destination
           sample_memory
    = Some (Iterator 12, h', tr)
    /\ h' !! 10 = Some 10 /\ h' !! 11 = Some 20 /\ h' !! 12 = Some 0.
Proof. eexists _, _. repeat split; reflexivity. Qed.

(** [copy] of the whole sequence returns one past the last slot written. *)
Example copy_scenario :
  exists h' tr,
    copy in_order_backend generic_tag sample_source (advance sample_source 4)
         sample_destination sample_memory
    = Some (Iterator 14, h', tr)
    /\ h' !! 10 = Some 10 /\ h' !! 11 = Some 20
    /\ h' !! 12 = Some 30 /\ h' !! 13 = Some 40.
Proof. eexists _, _. repeat split; reflexivity. Qed.

(** A sequential source and a parallel destination resolve to one space. *)
Example cross_space_resolution :
  minimum_space sequential_space parallel_space = Some parallel_space
  /\ minimum_space parallel_space sequential_space = Some parallel_space
  /\ minimum_space any_space sequential_space = Some sequential_space.
Proof. repeat split; reflexivity. Qed.

(** C1 as stated fails: the one [long long] element 2^32 + 5 copied into a
    valid non-overlapping [int] slot leaves 5 in the slot, not the element. *)
Lemma copy_narrowing_changes_element :
  holds_sequence wide_memory wide_source [4294967301]
  /\ valid_destination wide_memory int_destination 1
  /\ non_overlapping wide_source int_destination 1
  /\ exists h' tr,
       copy in_order_backend generic_tag wide_source (advance wide_source 1)
            int_destination wide_memory
       = Some (advance int_destination 1, h', tr)
       /\ [4294967301] !! 0%nat = Some 4294967301
       /\ h' !! (base int_destination + 0) = Some 5
       /\ h' !! (base int_destination + 0) <> Some 4294967301.
Proof.
  split.
  { intros k v Hk. destruct k as [|k]; simpl in Hk; [|discriminate].
    injection Hk as <-. reflexivity. }
  split.
  { intros k Hk. assert (k = 0) as -> by lia. eexists. reflexivity. }
  split.
  { intros j k Hj Hk. simpl. lia. }
  eexists _, _. split; [reflexivity|]. split; [reflexivity|].
  split; [reflexivity|]. discriminate.
Qed.

(** C5 as stated fails: copying one element from address 0 to address 10
    reads address 0, which lies outside the destination range. *)
Lemma copy_reads_outside_destination :
  exists it h' tr a,
    copy in_order_backend generic_tag sample_source (advance sample_source 1)
         sample_destination sample_memory
    = Some (it, h', tr)
    /\ Read a ∈ tr
    /\ ~ in_range sample_destination 1 a.
Proof.
  eexists _, _, _, 0. split; [reflexivity|]. split.
  - left.
  - unfold in_range. simpl. lia.
Qed.

(** ** The theorems at the sample memory *)

Lemma copy_elementwise_identity_witness :
  holds_sequence sample_memory sample_source [10; 20; 30; 40]
  /\ valid_destination sample_memory sample_destination 4
  /\ non_overlapping sample_source sample_destination 4
  /\ exists h' tr,
       copy mixed_backend generic_tag sample_source (advance sample_source 4)
            sample_destination sample_memory
       = Some (advance sample_destination 4, h', tr)
       /\ (forall (k : nat) (v : Z),
             [10; 20; 30; 40] !! k = Some v ->
             h' !! (base sample_destination + Z.of_nat k)
             = Some (convert long_long_type long_long_type v))
       /\ (forall (k : nat) (v : Z),
             [10; 20; 30; 40] !! k = Some v ->
             convert long_long_type long_long_type v = v ->
             h' !! (base sample_destination + Z.of_nat k) = Some v).
Proof.
  split; [exact sample_holds_sequence|].
  split; [apply sample_valid_destination; lia|].
  split; [apply sample_non_overlapping; lia|].
  apply (copy_elementwise_identity mixed_backend generic_tag
           sample_source sample_destination [10; 20; 30; 40] sample_memory).
  - exact sample_holds_sequence.
  - apply sample_valid_destination. simpl. lia.
  - apply sample_non_overlapping. simpl. lia.
Defined.

Lemma copy_n_count_equivalence_witness :
  holds_sequence sample_memory sample_source [10; 20; 30; 40]
  /\ 0 <= 2 <= Z.of_nat (length [10; 20; 30; 40])
  /\ valid_destination sample_memory sample_destination 2
  /\ order_independent sample_source sample_destination 2
  /\ exists it h' tr1 tr2,
       copy_n mixed_backend generic_tag sample_source 2 sample_destination
              sample_memory
       = Some (it, h', tr1)
       /\ copy mixed_backend generic_tag sample_source (advance sample_source 2)
               sample_destination sample_memory
          = Some (it, h', tr2).
Proof.
  assert (Hov : order_independent sample_source sample_destination 2).
  { apply non_overlapping_order_independent, sample_non_overlapping. lia. }
  assert (Hn : 0 <= 2 <= Z.of_nat (length [10; 20; 30; 40])) by (simpl; lia).
  split; [exact sample_holds_sequence|].
  split; [exact Hn|].
  split; [apply sample_valid_destination; lia|].
  split; [exact Hov|].
  apply (copy_n_count_equivalence mixed_backend generic_tag
           sample_source sample_destination [10; 20; 30; 40] 2 sample_memory).
  - exact sample_holds_sequence.
  - exact Hn.
  - apply sample_valid_destination. lia.
  - exact Hov.
Defined.

Lemma copy_n_returns_advanced_witness :
  0 <= 2
  /\ readable sample_memory sample_source 2
  /\ valid_destination sample_memory sample_destination 2
  /\ exists h' tr,
       copy_n mixed_backend generic_tag sample_source 2 sample_destination
              sample_memory
       = Some (advance sample_destination 2, h', tr).
Proof.
  split; [lia|].
  split; [apply sample_readable; lia|].
  split; [apply sample_valid_destination; lia|].
  apply (copy_n_returns_advanced mixed_backend generic_tag
           sample_source sample_destination 2 sample_memory).
  - lia.
  - apply sample_readable. lia.
  - apply sample_valid_destination. lia.
Defined.

Lemma copy_frame_witness :
  0 <= 4
  /\ readable sample_memory sample_source 4
  /\ valid_destination sample_memory sample_destination 4
  /\ exists h' tr,
       copy mixed_backend generic_tag sample_source (advance sample_source 4)
            sample_destination sample_memory
       = Some (advance sample_destination 4, h', tr)
       /\ count_writes tr = Z.to_nat 4
       /\ (forall k, 0 <= k < 4 -> Write (base sample_destination + k) ∈ tr)
       /\ (forall a, Write a ∈ tr -> in_range sample_destination 4 a)
       /\ (forall a, Read a ∈ tr -> in_range sample_source 4 a)
       /\ (forall a, ~ in_range sample_destination 4 a ->
                     h' !! a = sample_memory !! a)
       /\ (non_overlapping sample_source sample_destination 4 ->
           forall k, 0 <= k < 4 ->
                     h' !! (base sample_source + k)
                     = sample_memory !! (base sample_source + k)).
Proof.
  split; [lia|].
  split; [apply sample_readable; lia|].
  split; [apply sample_valid_destination; lia|].
  apply (copy_frame mixed_backend generic_tag
           sample_source sample_destination 4 sample_memory).
  - lia.
  - apply sample_readable. lia.
  - apply sample_valid_destination. lia.
Defined.

Lemma copy_deterministic_witness :
  0 <= 4
  /\ readable sample_memory sample_source 4
  /\ valid_destination sample_memory sample_destination 4
  /\ order_independent sample_source sample_destination 4
  /\ exists sp it h',
       zip_iterator_space (make_zip_iterator (sample_source, sample_destination))
       = Some sp
       /\ (forall B, exists tr,
              copy_n B generic_tag sample_source 4 sample_destination
                     sample_memory
              = Some (it, h', tr))
       /\ (forall B, exists tr,
              copy B generic_tag sample_source (advance sample_source 4)
                   sample_destination sample_memory
              = Some (it, h', tr)).
Proof.
  assert (Hov : order_independent sample_source sample_destination 4).
  { apply non_overlapping_order_independent, sample_non_overlapping. lia. }
  split; [lia|].
  split; [apply sample_readable; lia|].
  split; [apply sample_valid_destination; lia|].
  split; [exact Hov|].
  apply (copy_deterministic generic_tag sample_source sample_destination 4
           sample_memory).
  - lia.
  - apply sample_readable. lia.
  - apply sample_valid_destination. lia.
  - exact Hov.
Defined.

(** * Further properties of copy and copy_n *)

(** ** What a completed run tells about the memory it started from *)

Section RunInversion.

Context {T : Type}.
Implicit Types (h : gmap Z T) (f : T -> T) (s d : Z) (ks : list nat).

(** A run that completes read and wrote allocated addresses only, and
    allocated or freed nothing. *)
Lemma visit_completed f s d ks :
  forall h h' (u : unit) (tr : list access),
  visit (element_copy f s d) ks h = Some (u, h', tr) ->
  dom h' = dom h
  /\ tr = accesses_of s d ks
  /\ (forall k, k ∈ ks ->
        is_Some (h !! (s + Z.of_nat k)) /\ is_Some (h !! (d + Z.of_nat k))).
Proof.
  induction ks as [|k ks IH]; intros h h' u tr Hrun.
  - injection Hrun as _ <- <-. split; [reflexivity|]. split; [reflexivity|].
    intros k Hk. now apply elem_of_nil in Hk.
  - simpl in Hrun. unfold bind at 1 in Hrun.
    unfold element_copy, bind, load, store in Hrun.
    destruct (h !! (s + Z.of_nat k)) as [v|] eqn:Hs; [|discriminate].
    destruct (h !! (d + Z.of_nat k)) as [w|] eqn:Hd; [|discriminate].
    destruct (visit _ ks _) as [[[u1 h1] t1]|] eqn:Hrest; [|discriminate].
    injection Hrun as _ <- <-.
    destruct (IH _ _ _ _ Hrest) as (Hdom & -> & Halloc).
    assert (Hdom1 : dom (<[d + Z.of_nat k := f v]> h) = dom h).
    { apply dom_insert_lookup_L. now exists w. }
    split; [now rewrite Hdom|]. split; [reflexivity|].
    intros j [->|Hj]%elem_of_cons.
    + split; eauto.
    + destruct (Halloc j Hj) as [Hsj Hdj].
      rewrite <- !elem_of_dom in *. now rewrite Hdom1 in Hsj, Hdj.
Qed.

End RunInversion.

Section CopiedFacts.

Context {T : Type} {VT : ValueTypes T}.
Context {space1 space2 : space_tag} {value1 value2 : value_type}.
Implicit Types (h : gmap Z T).
Implicit Types (first : iterator space1 value1) (result : iterator space2 value2).

Lemma advance_advance {space : space_tag} {value : value_type} (it : iterator space value) (n m : Z) :
  advance (advance it n) m = advance it (n + m).
Proof. unfold advance. simpl. f_equal. lia. Qed.

Lemma order_independent_sym first result (n : Z) :
  order_independent first result n -> order_independent result first n.
Proof. intros H j k Hj Hk Heq. symmetry. apply H; auto. Qed.

Lemma order_independent_tail first result (n m : Z) :
  0 <= n ->
  order_independent first result (n + m) ->
  order_independent (advance first n) (advance result n) m.
Proof.
  intros Hn H j k Hj Hk Heq. simpl in Heq.
  assert (n + j = n + k) by (apply H; lia). lia.
Qed.

Lemma order_independent_head first result (n m : Z) :
  0 <= m ->
  order_independent first result (n + m) ->
  order_independent first result n.
Proof. intros Hm H j k Hj Hk. apply H; lia. Qed.

(** Same allocation: what is readable or writable in one memory is in the
    other. *)
Lemma same_dom_is_Some h h' (a : Z) :
  dom h' = dom h -> is_Some (h !! a) -> is_Some (h' !! a).
Proof. intros Hdom. rewrite <- !elem_of_dom. now rewrite Hdom. Qed.

(** Copying the first [n] elements and then the next [m] is copying [n + m]. *)
Lemma copied_compose h h1 h2 first result (n m : Z) :
  0 <= n -> 0 <= m ->
  order_independent first result (n + m) ->
  copied h h1 first result n ->
  copied h1 h2 (advance first n) (advance result n) m ->
  copied h h2 first result (n + m).
Proof.
  intros Hn Hm Hov [Hc1 Hf1] [Hc2 Hf2]. unfold in_range in *. simpl in *.
  split.
  - intros k Hk. destruct (decide (k < n)) as [Hlt|Hge].
    + rewrite Hf2 by lia. apply Hc1. lia.
    + replace (base result + k) with (base result + n + (k - n)) by lia.
      rewrite Hc2 by lia.
      replace (base first + n + (k - n)) with (base first + k) by lia.
      f_equal. apply Hf1. intros Hr.
      assert (base first + k - base result = k) by (apply Hov; lia). lia.
  - intros a Ha. unfold in_range in Ha. simpl in Ha.
    rewrite Hf2 by lia. apply Hf1. lia.
Qed.

End CopiedFacts.

(** Between iterators of one value type the write converts nothing. *)
Lemma copied_same_type {T : Type} {VT : ValueTypes T}
  {space1 space2 : space_tag} {value : value_type} (h h' : gmap Z T)
  (first : iterator space1 value) (result : iterator space2 value) (n : Z) :
  copied h h' first result n ->
  forall k, 0 <= k < n -> h' !! (base result + k) = h !! (base first + k).
Proof.
  intros [Hc _] k Hk. rewrite (Hc k Hk).
  destruct (h !! (base first + k)) as [v|]; simpl; [|reflexivity].
  now rewrite convert_same.
Qed.

Section CopiedSameType.

Context {T : Type} {VT : ValueTypes T}.
Context {space1 space2 : space_tag} {value : value_type}.
Implicit Types (h : gmap Z T).
Implicit Types (first : iterator space1 value) (result : iterator space2 value).

(** A copy onto itself changes nothing. *)
Lemma copied_self h h' first result (n : Z) :
  base result = base first -> copied h h' first result n -> h' = h.
Proof.
  intros Hsame Hcopied. apply map_eq. intros a.
  destruct (decide (in_range result n a)) as [Hin|Hout];
    [|now apply Hcopied].
  unfold in_range in Hin.
  replace a with (base result + (a - base result)) at 1 by lia.
  rewrite (copied_same_type h h' first result n Hcopied) by lia.
  f_equal. lia.
Qed.

(** A copy keeps the source elements, also where they are output slots. *)
Lemma copied_source h h' first result (n : Z) :
  order_independent first result n ->
  copied h h' first result n ->
  forall k, 0 <= k < n -> h' !! (base first + k) = h !! (base first + k).
Proof.
  intros Hov Hcopied k Hk.
  destruct (decide (in_range result n (base first + k))) as [Hin|Hout];
    [|now apply Hcopied].
  unfold in_range in Hin.
  assert (Hj : base first + k - base result = k) by (apply Hov; lia).
  replace (base first + k) with (base result + k) at 1 by lia.
  now apply (copied_same_type h h' first result n).
Qed.

(** Copying again what was copied changes nothing. *)
Lemma copied_again h h1 h2 first result (n : Z) :
  order_independent first result n ->
  copied h h1 first result n ->
  copied h1 h2 first result n ->
  h2 = h1.
Proof.
  intros Hov H1 H2. apply map_eq. intros a.
  destruct (decide (in_range result n a)) as [Hin|Hout]; [|now apply H2].
  unfold in_range in Hin.
  replace a with (base result + (a - base result)) by lia.
  rewrite (copied_same_type h1 h2 first result n H2) by lia.
  rewrite (copied_source h h1 first result n Hov H1) by lia.
  symmetry. apply (copied_same_type h h1 first result n H1). lia.
Qed.

(** Copying back what was copied changes nothing. *)
Lemma copied_back h h1 h2 first result (n : Z) :
  order_independent first result n ->
  copied h h1 first result n ->
  copied h1 h2 result first n ->
  h2 = h1.
Proof.
  intros Hov H1 H2. apply map_eq. intros a.
  destruct (decide (in_range first n a)) as [Hin|Hout]; [|now apply H2].
  unfold in_range in Hin.
  replace a with (base first + (a - base first)) by lia.
  rewrite (copied_same_type h1 h2 result first n H2) by lia.
  rewrite (copied_source h h1 first result n Hov H1) by lia.
  apply (copied_same_type h h1 first result n H1). lia.
Qed.

End CopiedSameType.

(** ** Faults, allocation and accesses *)

Section Completion.

Context {T : Type} {VT : ValueTypes T}.
Variable B : backend.
Context {space1 space2 : space_tag} {value1 value2 : value_type}.
Implicit Types (h : gmap Z T) (tg : tag).
Implicit Types (first last : iterator space1 value1) (result : iterator space2 value2).

Lemma copy_inversion tg first last result h
  (it : iterator space2 value2) (h' : gmap Z T) (tr : list access) :
  copy B tg first last result h = Some (it, h', tr) ->
  0 <= distance first last
  /\ it = advance result (distance first last)
  /\ dom h' = dom h
  /\ readable h first (distance first last)
  /\ valid_destination h result (distance first last).
Proof.
  unfold copy, transform. intros Hrun.
  destruct (decide (distance first last < 0)) as [Hneg|Hpos]; [discriminate|].
  unfold bind at 1 in Hrun.
  destruct (visit _ (transform_order B _) h) as [[[u h1] t1]|] eqn:Hvisit;
    [|discriminate].
  injection Hrun as <- <- <-.
  destruct (visit_completed (fun v => convert value1 value2 (identity v)) (base first) (base result) _ _ _ _ _ Hvisit)
    as (Hdom & _ & Halloc).
  assert (Hin : forall k, 0 <= k < distance first last ->
             Z.to_nat k ∈ transform_order B (Z.to_nat (distance first last))).
  { intros k Hk. rewrite (transform_order_perm B), elem_of_seq. lia. }
  split; [lia|]. split; [reflexivity|]. split; [exact Hdom|].
  split; intros k Hk; destruct (Halloc _ (Hin k Hk)) as [Hs Hd];
    rewrite Z2Nat.id in Hs, Hd by lia; assumption.
Qed.

Lemma copy_n_inversion tg first (n : Z) result h
  (it : iterator space2 value2) (h' : gmap Z T) (tr : list access) :
  copy_n B tg first n result h = Some (it, h', tr) ->
  0 <= n
  /\ it = advance result n
  /\ dom h' = dom h
  /\ readable h first n
  /\ valid_destination h result n.
Proof.
  unfold copy_n, for_each_n. intros Hrun.
  destruct (decide (n < 0)) as [Hneg|Hpos]; [discriminate|].
  unfold bind at 1 2 in Hrun.
  destruct (visit _ (for_each_n_order B _) h) as [[[u h1] t1]|] eqn:Hvisit;
    [|discriminate].
  injection Hrun as <- <- <-.
  destruct (visit_completed (fun v => convert value1 value2 (identity v)) (base first) (base result) _ _ _ _ _ Hvisit)
    as (Hdom & _ & Halloc).
  assert (Hin : forall k, 0 <= k < n ->
             Z.to_nat k ∈ for_each_n_order B (Z.to_nat n)).
  { intros k Hk. rewrite (for_each_n_order_perm B), elem_of_seq. lia. }
  split; [lia|]. split; [reflexivity|]. split; [exact Hdom|].
  split; intros k Hk; destruct (Halloc _ (Hin k Hk)) as [Hs Hd];
    rewrite Z2Nat.id in Hs, Hd by lia; assumption.
Qed.

(** X1: A call of [copy] on a range of [last - first >= 0] elements that
    returns was given readable elements and allocated slots, whatever the
    overlap; it returns [result] advanced by [last - first] and neither
    allocates nor frees memory: an address is allocated after the call
    exactly when it was before. *)
Theorem copy_returned tg first last result h
  (it : iterator space2 value2) (h' : gmap Z T) (tr : list access) :
  0 <= distance first last ->
  copy B tg first last result h = Some (it, h', tr) ->
  it = advance result (distance first last)
  /\ (forall a, is_Some (h' !! a) <-> is_Some (h !! a))
  /\ readable h first (distance first last)
  /\ valid_destination h result (distance first last).
Proof.
  intros _ Hrun.
  destruct (copy_inversion tg first last result h it h' tr Hrun)
    as (_ & Hit & Hdom & Hsrc & Hdst).
  split; [exact Hit|].
  split; [|split; assumption].
  intros a. rewrite <- !elem_of_dom. now rewrite Hdom.
Qed.

(** X2: A call of [copy_n] with a count [n >= 0] that returns was given
    readable elements and allocated slots, whatever the overlap; it returns
    [result] advanced by [n] and neither allocates nor frees memory: an
    address is allocated after the call exactly when it was before. *)
Theorem copy_n_returned tg first (n : Z) result h
  (it : iterator space2 value2) (h' : gmap Z T) (tr : list access) :
  0 <= n ->
  copy_n B tg first n result h = Some (it, h', tr) ->
  it = advance result n
  /\ (forall a, is_Some (h' !! a) <-> is_Some (h !! a))
  /\ readable h first n
  /\ valid_destination h result n.
Proof.
  intros _ Hrun.
  destruct (copy_n_inversion tg first n result h it h' tr Hrun)
    as (_ & Hit & Hdom & Hsrc & Hdst).
  split; [exact Hit|].
  split; [|split; assumption].
  intros a. rewrite <- !elem_of_dom. now rewrite Hdom.
Qed.

(** X3: [copy] over a range of [n >= 0] elements returns exactly when the [n]
    input elements are readable and the [n] output slots are allocated;
    otherwise it faults.  This layer adds no check and no recovery. *)
Theorem copy_returns_iff tg first result (n : Z) h :
  0 <= n ->
  is_Some (copy B tg first (advance first n) result h)
  <-> readable h first n /\ valid_destination h result n.
Proof.
  intros Hn. split.
  - intros [[[it h'] tr] Hrun].
    apply copy_inversion in Hrun as (_ & _ & _ & Hsrc & Hdst).
    rewrite distance_advance in Hsrc, Hdst. now split.
  - intros [Hsrc Hdst].
    destruct (copy_completes B tg first result n h Hn Hsrc Hdst) as (h' & Hrun & _).
    rewrite Hrun. eauto.
Qed.

(** X4: [copy_n] with a count [n >= 0] returns exactly when the [n] input
    elements are readable and the [n] output slots are allocated; otherwise
    it faults.  This layer adds no check and no recovery. *)
Theorem copy_n_returns_iff tg first result (n : Z) h :
  0 <= n ->
  is_Some (copy_n B tg first n result h)
  <-> readable h first n /\ valid_destination h result n.
Proof.
  intros Hn. split.
  - intros [[[it h'] tr] Hrun].
    apply copy_n_inversion in Hrun as (_ & _ & _ & Hsrc & Hdst). now split.
  - intros [Hsrc Hdst].
    destruct (copy_n_completes B tg first result n h Hn Hsrc Hdst)
      as (h' & Hrun & _).
    rewrite Hrun. eauto.
Qed.

End Completion.

(** ** What copy_n writes, reads and leaves alone *)

Section CopyNEffect.

Context {T : Type} {VT : ValueTypes T}.
Variable B : backend.
Context {space1 space2 : space_tag} {value1 value2 : value_type}.
Implicit Types (h : gmap Z T) (tg : tag).
Implicit Types (first : iterator space1 value1) (result : iterator space2 value2).

(** X5: [copy_n] of the first [n] elements of a sequence [S] into a valid
    non-overlapping destination: the output slot of every offset [k] below
    [n] holds [S[k]] converted to the value type of the destination, which
    is [S[k]] itself wherever the conversion keeps it; every address outside
    the [n] slots, the rest of the destination buffer and the source
    included, holds what it held. *)
Theorem copy_n_elementwise_identity tg first result (S : list T) (n : Z) h :
  holds_sequence h first S ->
  0 <= n <= Z.of_nat (length S) ->
  valid_destination h result n ->
  non_overlapping first result n ->
  exists h' tr,
    copy_n B tg first n result h = Some (advance result n, h', tr)
    /\ (forall (k : nat) (v : T),
          Z.of_nat k < n -> S !! k = Some v ->
          h' !! (base result + Z.of_nat k) = Some (convert value1 value2 v))
    /\ (forall (k : nat) (v : T),
          Z.of_nat k < n -> S !! k = Some v -> convert value1 value2 v = v ->
          h' !! (base result + Z.of_nat k) = Some v)
    /\ (forall a, ~ in_range result n a -> h' !! a = h !! a).
Proof.
  intros HS [Hn0 Hn] Hdst Hov.
  destruct (copy_n_copies B tg first result n h) as (h' & tr & Hrun & Hc & Hf).
  - exact Hn0.
  - now apply (holds_sequence_readable _ _ S).
  - exact Hdst.
  - now apply non_overlapping_order_independent.
  - assert (Hconv : forall (k : nat) (v : T),
               Z.of_nat k < n -> S !! k = Some v ->
               h' !! (base result + Z.of_nat k) = Some (convert value1 value2 v)).
    { intros k v Hk Hv. rewrite Hc by lia. now rewrite (HS k v Hv). }
    exists h', tr. split; [exact Hrun|]. split; [exact Hconv|].
    split; [|exact Hf].
    intros k v Hk Hv Hkeep. rewrite (Hconv k v Hk Hv). now rewrite Hkeep.
Qed.

(** X6: The accesses of [copy_n] are, up to their order, one read of the input
    element and one write of the output slot for each offset below [n]:
    no element is skipped, none is copied twice, nothing else is touched. *)
Theorem copy_n_accesses_once tg first result (n : Z) h
  (it : iterator space2 value2) (h' : gmap Z T) (tr : list access) :
  copy_n B tg first n result h = Some (it, h', tr) ->
  tr ≡ₚ accesses_of (base first) (base result) (seq 0 (Z.to_nat n))
  /\ count_writes tr = Z.to_nat n
  /\ (forall a, Write a ∈ tr <-> in_range result n a)
  /\ (forall a, Read a ∈ tr <-> in_range first n a).
Proof.
  intros Hrun.
  destruct (copy_n_inversion B tg first n result h it h' tr Hrun)
    as (Hn & _ & _ & Hsrc & Hdst).
  destruct (copy_n_completes B tg first result n h Hn Hsrc Hdst)
    as (h1 & Hrun1 & _).
  rewrite Hrun in Hrun1. injection Hrun1 as _ _ ->.
  pose proof (for_each_n_order_perm B (Z.to_nat n)) as Hperm.
  assert (Hin : forall k : nat,
             k ∈ for_each_n_order B (Z.to_nat n) <-> (k < Z.to_nat n)%nat).
  { intros k. rewrite Hperm, elem_of_seq. lia. }
  split; [|split; [|split]].
  - unfold accesses_of. now rewrite Hperm.
  - rewrite accesses_of_writes, Hperm. apply length_seq.
  - intros a. split.
    + intros (k & Hk%Hin & ->)%accesses_of_write. unfold in_range. lia.
    + unfold in_range. intros Ha.
      replace a with (base result + Z.of_nat (Z.to_nat (a - base result))) by lia.
      apply accesses_of_visited, Hin. lia.
  - intros a. split.
    + intros (k & Hk%Hin & ->)%accesses_of_read. unfold in_range. lia.
    + unfold in_range. intros Ha.
      replace a with (base first + Z.of_nat (Z.to_nat (a - base first))) by lia.
      apply accesses_of_visited, Hin. lia.
Qed.

(** X7: The accesses of a [copy] that returns are, up to their order, one
    read of the input element and one write of the output slot for each
    offset below [last - first]: the written addresses are exactly the
    destination range, the read addresses exactly the source range. *)
Theorem copy_accesses_once tg first (last : iterator space1 value1) result h
  (it : iterator space2 value2) (h' : gmap Z T) (tr : list access) :
  copy B tg first last result h = Some (it, h', tr) ->
  tr ≡ₚ accesses_of (base first) (base result)
                     (seq 0 (Z.to_nat (distance first last)))
  /\ (forall a, Write a ∈ tr <-> in_range result (distance first last) a)
  /\ (forall a, Read a ∈ tr <-> in_range first (distance first last) a).
Proof.
  intros Hrun.
  destruct (copy_inversion B tg first last result h it h' tr Hrun)
    as (Hn & _ & _ & Hsrc & Hdst).
  set (n := distance first last) in *.
  assert (Hlast : last = advance first n).
  { destruct last as [p]. unfold advance, n, distance. simpl. f_equal. lia. }
  rewrite Hlast in Hrun.
  destruct (copy_completes B tg first result n h Hn Hsrc Hdst)
    as (h1 & Hrun1 & _).
  rewrite Hrun in Hrun1. injection Hrun1 as _ _ ->.
  pose proof (transform_order_perm B (Z.to_nat n)) as Hperm.
  assert (Hin : forall k : nat,
             k ∈ transform_order B (Z.to_nat n) <-> (k < Z.to_nat n)%nat).
  { intros k. rewrite Hperm, elem_of_seq. lia. }
  split; [|split].
  - unfold accesses_of. now rewrite Hperm.
  - intros a. split.
    + intros (k & Hk%Hin & ->)%accesses_of_write. unfold in_range. lia.
    + unfold in_range. intros Ha.
      replace a with (base result + Z.of_nat (Z.to_nat (a - base result))) by lia.
      apply accesses_of_visited, Hin. lia.
  - intros a. split.
    + intros (k & Hk%Hin & ->)%accesses_of_read. unfold in_range. lia.
    + unfold in_range. intros Ha.
      replace a with (base first + Z.of_nat (Z.to_nat (a - base first))) by lia.
      apply accesses_of_visited, Hin. lia.
Qed.

End CopyNEffect.

(** ** Copies composed *)

Section Composition.

Context {T : Type} {VT : ValueTypes T}.
Variable B : backend.
Context {space1 space2 : space_tag} {value1 value2 : value_type}.
Implicit Types (h : gmap Z T) (tg : tag).
Implicit Types (first : iterator space1 value1) (result : iterator space2 value2).

Lemma readable_after h h' first (n m : Z) :
  0 <= n -> dom h' = dom h ->
  readable h first (n + m) -> readable h' (advance first n) m.
Proof.
  intros Hn Hdom Hsrc k Hk. simpl.
  apply (same_dom_is_Some h h' _ Hdom).
  replace (base first + n + k) with (base first + (n + k)) by lia.
  apply Hsrc. lia.
Qed.

Lemma valid_destination_after h h' result (n m : Z) :
  0 <= n -> dom h' = dom h ->
  valid_destination h result (n + m) -> valid_destination h' (advance result n) m.
Proof.
  intros Hn Hdom Hdst k Hk. simpl.
  apply (same_dom_is_Some h h' _ Hdom).
  replace (base result + n + k) with (base result + (n + k)) by lia.
  apply Hdst. lia.
Qed.

(** X10: Copies chain through the returned iterator: copying [n] elements and
    then the next [m] elements to the iterator the first call returned gives
    the memory and the final iterator of one copy of [n + m] elements. *)
Theorem copy_chained tg first result (n m : Z) h :
  0 <= n -> 0 <= m ->
  readable h first (n + m) ->
  valid_destination h result (n + m) ->
  order_independent first result (n + m) ->
  exists mid h1 h2 tr1 tr2 tr,
    copy B tg first (advance first n) result h = Some (mid, h1, tr1)
    /\ copy B tg (advance first n) (advance (advance first n) m) mid h1
       = Some (advance result (n + m), h2, tr2)
    /\ copy B tg first (advance first (n + m)) result h
       = Some (advance result (n + m), h2, tr).
Proof.
  intros Hn Hm Hsrc Hdst Hov.
  destruct (copy_copies B tg first result n h) as (h1 & tr1 & Hrun1 & Hc1).
  { exact Hn. }
  { intros k Hk. apply Hsrc. lia. }
  { intros k Hk. apply Hdst. lia. }
  { now apply (order_independent_head first result n m). }
  destruct (copy_inversion B _ _ _ _ _ _ _ _ Hrun1) as (_ & _ & Hdom & _).
  destruct (copy_copies B tg (advance first n) (advance result n) m h1)
    as (h2 & tr2 & Hrun2 & Hc2).
  { exact Hm. }
  { now apply (readable_after h). }
  { now apply (valid_destination_after h). }
  { now apply order_independent_tail. }
  destruct (copy_copies B tg first result (n + m) h) as (h3 & tr & Hrun3 & Hc3);
    [lia|exact Hsrc|exact Hdst|exact Hov|].
  exists (advance result n), h1, h2, tr1, tr2, tr.
  split; [exact Hrun1|]. split.
  - rewrite Hrun2. now rewrite advance_advance.
  - rewrite Hrun3. do 3 f_equal.
    apply (copied_unique h h3 h2 first result (n + m) Hc3).
    now apply (copied_compose h h1 h2).
Qed.

(** X11: [copy_n] chains through the returned iterator: [copy_n] of [n]
    elements followed by [copy_n] of the next [m] elements to the iterator
    the first call returned gives the memory and the final iterator of one
    [copy_n] of [n + m] elements. *)
Theorem copy_n_chained tg first result (n m : Z) h :
  0 <= n -> 0 <= m ->
  readable h first (n + m) ->
  valid_destination h result (n + m) ->
  order_independent first result (n + m) ->
  exists mid h1 h2 tr1 tr2 tr,
    copy_n B tg first n result h = Some (mid, h1, tr1)
    /\ copy_n B tg (advance first n) m mid h1
       = Some (advance result (n + m), h2, tr2)
    /\ copy_n B tg first (n + m) result h
       = Some (advance result (n + m), h2, tr).
Proof.
  intros Hn Hm Hsrc Hdst Hov.
  destruct (copy_n_copies B tg first result n h) as (h1 & tr1 & Hrun1 & Hc1).
  { exact Hn. }
  { intros k Hk. apply Hsrc. lia. }
  { intros k Hk. apply Hdst. lia. }
  { now apply (order_independent_head first result n m). }
  destruct (copy_n_inversion B _ _ _ _ _ _ _ _ Hrun1) as (_ & _ & Hdom & _).
  destruct (copy_n_copies B tg (advance first n) (advance result n) m h1)
    as (h2 & tr2 & Hrun2 & Hc2).
  { exact Hm. }
  { now apply (readable_after h). }
  { now apply (valid_destination_after h). }
  { now apply order_independent_tail. }
  destruct (copy_n_copies B tg first result (n + m) h) as (h3 & tr & Hrun3 & Hc3);
    [lia|exact Hsrc|exact Hdst|exact Hov|].
  exists (advance result n), h1, h2, tr1, tr2, tr.
  split; [exact Hrun1|]. split.
  - rewrite Hrun2. now rewrite advance_advance.
  - rewrite Hrun3. do 3 f_equal.
    apply (copied_unique h h3 h2 first result (n + m) Hc3).
    now apply (copied_compose h h1 h2).
Qed.

End Composition.

(** ** Copies between ranges of one value type *)

Section SameValueType.

Context {T : Type} {VT : ValueTypes T}.
Variable B : backend.
Context {space1 space2 : space_tag} {value : value_type}.
Implicit Types (h : gmap Z T) (tg : tag).
Implicit Types (first : iterator space1 value) (result : iterator space2 value).

(** X8: A copy whose destination is its source, [copy(first, last, first)],
    returns and leaves the memory as it was, in whatever order the backend
    visits the elements.  (Source and destination have one value type.) *)
Theorem copy_onto_itself tg first result (n : Z) h :
  0 <= n ->
  readable h first n ->
  base result = base first ->
  exists tr,
    copy B tg first (advance first n) result h = Some (advance result n, h, tr).
Proof.
  intros Hn Hsrc Hsame.
  destruct (copy_copies B tg first result n h) as (h' & tr & Hrun & Hcopied).
  - exact Hn.
  - exact Hsrc.
  - intros k Hk. rewrite Hsame. now apply Hsrc.
  - intros j k Hj Hk Heq. lia.
  - exists tr. now rewrite <- (copied_self h h' first result n Hsame Hcopied) at 2.
Qed.

(** X9: A [copy_n] whose destination is its source, [copy_n(first, n, first)],
    returns and leaves the memory as it was, in whatever order the backend
    visits the elements.  (Source and destination have one value type.) *)
Theorem copy_n_onto_itself tg first result (n : Z) h :
  0 <= n ->
  readable h first n ->
  base result = base first ->
  exists tr,
    copy_n B tg first n result h = Some (advance result n, h, tr).
Proof.
  intros Hn Hsrc Hsame.
  destruct (copy_n_copies B tg first result n h) as (h' & tr & Hrun & Hcopied).
  - exact Hn.
  - exact Hsrc.
  - intros k Hk. rewrite Hsame. now apply Hsrc.
  - intros j k Hj Hk Heq. lia.
  - exists tr. now rewrite <- (copied_self h h' first result n Hsame Hcopied) at 2.
Qed.

(** X12: Between ranges of one value type, copying a range and then copying
    the destination back onto the source returns both times; the second
    copy changes nothing, and the source holds what it held before the
    first. *)
Theorem copy_there_and_back tg first result (n : Z) h :
  0 <= n ->
  readable h first n ->
  valid_destination h result n ->
  order_independent first result n ->
  exists h1 tr1 tr2,
    copy B tg first (advance first n) result h = Some (advance result n, h1, tr1)
    /\ copy B tg result (advance result n) first h1
       = Some (advance first n, h1, tr2)
    /\ forall k, 0 <= k < n -> h1 !! (base first + k) = h !! (base first + k).
Proof.
  intros Hn Hsrc Hdst Hov.
  destruct (copy_copies B tg first result n h Hn Hsrc Hdst Hov)
    as (h1 & tr1 & Hrun1 & Hc1).
  destruct (copy_inversion B _ _ _ _ _ _ _ _ Hrun1) as (_ & _ & Hdom & _).
  destruct (copy_copies B tg result first n h1) as (h2 & tr2 & Hrun2 & Hc2).
  { exact Hn. }
  { intros k Hk. apply (same_dom_is_Some h h1 _ Hdom). now apply Hdst. }
  { intros k Hk. apply (same_dom_is_Some h h1 _ Hdom). now apply Hsrc. }
  { now apply order_independent_sym. }
  exists h1, tr1, tr2. split; [exact Hrun1|]. split.
  - now rewrite <- (copied_back h h1 h2 first result n Hov Hc1 Hc2) at 2.
  - now apply (copied_source h h1 first result n).
Qed.

(** X13: Repeating a [copy_n] changes nothing: the second call returns the same
    iterator and leaves the memory the first call produced.  (Source and
    destination have one value type.) *)
Theorem copy_n_repeated tg first result (n : Z) h :
  0 <= n ->
  readable h first n ->
  valid_destination h result n ->
  order_independent first result n ->
  exists h1 tr1 tr2,
    copy_n B tg first n result h = Some (advance result n, h1, tr1)
    /\ copy_n B tg first n result h1 = Some (advance result n, h1, tr2).
Proof.
  intros Hn Hsrc Hdst Hov.
  destruct (copy_n_copies B tg first result n h Hn Hsrc Hdst Hov)
    as (h1 & tr1 & Hrun1 & Hc1).
  destruct (copy_n_inversion B _ _ _ _ _ _ _ _ Hrun1) as (_ & _ & Hdom & _).
  destruct (copy_n_copies B tg first result n h1) as (h2 & tr2 & Hrun2 & Hc2).
  { exact Hn. }
  { intros k Hk. apply (same_dom_is_Some h h1 _ Hdom). now apply Hsrc. }
  { intros k Hk. apply (same_dom_is_Some h h1 _ Hdom). now apply Hdst. }
  { exact Hov. }
  exists h1, tr1, tr2. split; [exact Hrun1|].
  now rewrite <- (copied_again h h1 h2 first result n Hov Hc1 Hc2) at 2.
Qed.

End SameValueType.

(** X14: What [copy_n] puts into the destination is decided by the source
    elements alone: runs on two memories that agree on the [n] input
    elements, on any two backends, leave the same values in the [n] output
    slots, whatever the slots and the rest of the memories held. *)
Theorem copy_n_result_from_source {T : Type} {VT : ValueTypes T}
  (B1 B2 : backend)
  {space1 space2 : space_tag} {value1 value2 : value_type} (tg : tag)
  (first : iterator space1 value1) (result : iterator space2 value2) (n : Z)
  (h1 h2 : gmap Z T) :
  0 <= n ->
  readable h1 first n ->
  valid_destination h1 result n ->
  valid_destination h2 result n ->
  order_independent first result n ->
  (forall k, 0 <= k < n -> h1 !! (base first + k) = h2 !! (base first + k)) ->
  exists h1' h2' tr1 tr2,
    copy_n B1 tg first n result h1 = Some (advance result n, h1', tr1)
    /\ copy_n B2 tg first n result h2 = Some (advance result n, h2', tr2)
    /\ forall k, 0 <= k < n ->
         h1' !! (base result + k) = h2' !! (base result + k).
Proof.
  intros Hn Hsrc1 Hdst1 Hdst2 Hov Hagree.
  assert (Hsrc2 : readable h2 first n).
  { intros k Hk. rewrite <- Hagree by exact Hk. now apply Hsrc1. }
  destruct (copy_n_copies B1 tg first result n h1 Hn Hsrc1 Hdst1 Hov)
    as (h1' & tr1 & Hrun1 & Hc1 & _).
  destruct (copy_n_copies B2 tg first result n h2 Hn Hsrc2 Hdst2 Hov)
    as (h2' & tr2 & Hrun2 & Hc2 & _).
  exists h1', h2', tr1, tr2. split; [exact Hrun1|]. split; [exact Hrun2|].
  intros k Hk. rewrite Hc1, Hc2 by exact Hk. f_equal. now apply Hagree.
Qed.

(** ** The further properties at the sample memory *)

Lemma sample_order_independent (n : Z) :
  n <= 4 -> order_independent sample_source sample_destination n.
Proof.
  intros Hn. now apply non_overlapping_order_independent, sample_non_overlapping.
Qed.

Lemma copy_returned_witness :
  0 <= distance sample_source (advance sample_source 4)
  /\ exists it h' tr,
       copy mixed_backend generic_tag sample_source (advance sample_source 4)
            sample_destination sample_memory
       = Some (it, h', tr)
       /\ it = advance sample_destination
                       (distance sample_source (advance sample_source 4))
       /\ (forall a, is_Some (h' !! a) <-> is_Some (sample_memory !! a))
       /\ readable sample_memory sample_source
                   (distance sample_source (advance sample_source 4))
       /\ valid_destination sample_memory sample_destination
                            (distance sample_source (advance sample_source 4)).
Proof.
  assert (Hd : 0 <= distance sample_source (advance sample_source 4))
    by (rewrite distance_advance; lia).
  split; [exact Hd|].
  destruct (copy_completes mixed_backend generic_tag sample_source
              sample_destination 4 sample_memory) as (h' & Hrun & _).
  - lia.
  - apply sample_readable. lia.
  - apply sample_valid_destination. lia.
  - eexists _, h', _. split; [exact Hrun|].
    exact (copy_returned mixed_backend _ _ _ _ _ _ _ _ Hd Hrun).
Defined.

Lemma copy_n_returned_witness :
  0 <= 3
  /\ exists it h' tr,
       copy_n mixed_backend generic_tag sample_source 3 sample_destination
              sample_memory
       = Some (it, h', tr)
       /\ it = advance sample_destination 3
       /\ (forall a, is_Some (h' !! a) <-> is_Some (sample_memory !! a))
       /\ readable sample_memory sample_source 3
       /\ valid_destination sample_memory sample_destination 3.
Proof.
  assert (Hn : 0 <= 3) by lia.
  split; [exact Hn|].
  destruct (copy_n_completes mixed_backend generic_tag sample_source
              sample_destination 3 sample_memory) as (h' & Hrun & _).
  - lia.
  - apply sample_readable. lia.
  - apply sample_valid_destination. lia.
  - eexists _, h', _. split; [exact Hrun|].
    exact (copy_n_returned mixed_backend _ _ _ _ _ _ _ _ Hn Hrun).
Defined.

Lemma copy_returns_iff_witness :
  0 <= 4
  /\ (is_Some (copy mixed_backend generic_tag sample_source
                    (advance sample_source 4) sample_destination sample_memory)
      <-> readable sample_memory sample_source 4
          /\ valid_destination sample_memory sample_destination 4).
Proof.
  split; [lia|].
  apply (copy_returns_iff mixed_backend generic_tag sample_source
           sample_destination 4 sample_memory).
  lia.
Defined.

Lemma copy_n_returns_iff_witness :
  0 <= 2
  /\ (is_Some (copy_n mixed_backend generic_tag sample_source 2
                      sample_destination sample_memory)
      <-> readable sample_memory sample_source 2
          /\ valid_destination sample_memory sample_destination 2).
Proof.
  split; [lia|].
  apply (copy_n_returns_iff mixed_backend generic_tag sample_source
           sample_destination 2 sample_memory).
  lia.
Defined.

Lemma copy_n_elementwise_identity_witness :
  holds_sequence wide_memory wide_source [4294967301]
  /\ 0 <= 1 <= Z.of_nat (length [4294967301])
  /\ valid_destination wide_memory int_destination 1
  /\ non_overlapping wide_source int_destination 1
  /\ exists h' tr,
       copy_n mixed_backend generic_tag wide_source 1 int_destination
              wide_memory
       = Some (advance int_destination 1, h', tr)
       /\ (forall (k : nat) (v : Z),
             Z.of_nat k < 1 -> [4294967301] !! k = Some v ->
             h' !! (base int_destination + Z.of_nat k)
             = Some (convert long_long_type int_type v))
       /\ (forall (k : nat) (v : Z),
             Z.of_nat k < 1 -> [4294967301] !! k = Some v ->
             convert long_long_type int_type v = v ->
             h' !! (base int_destination + Z.of_nat k) = Some v)
       /\ (forall a, ~ in_range int_destination 1 a ->
                     h' !! a = wide_memory !! a).
Proof.
  assert (HS : holds_sequence wide_memory wide_source [4294967301]).
  { intros k v Hk. destruct k as [|k]; simpl in Hk; [|discriminate].
    injection Hk as <-. reflexivity. }
  assert (Hn : 0 <= 1 <= Z.of_nat (length [4294967301])) by (simpl; lia).
  assert (Hdst : valid_destination wide_memory int_destination 1).
  { intros k Hk. assert (k = 0) as -> by lia. eexists. reflexivity. }
  assert (Hov : non_overlapping wide_source int_destination 1).
  { intros j k Hj Hk. simpl. lia. }
  split; [exact HS|]. split; [exact Hn|]. split; [exact Hdst|].
  split; [exact Hov|].
  exact (copy_n_elementwise_identity mixed_backend generic_tag wide_source
           int_destination [4294967301] 1 wide_memory HS Hn Hdst Hov).
Defined.

Lemma copy_n_accesses_once_witness :
  exists it h' tr,
    copy_n mixed_backend generic_tag sample_source 3 sample_destination
           sample_memory
    = Some (it, h', tr)
    /\ tr ≡ₚ accesses_of (base sample_source) (base sample_destination)
                          (seq 0 (Z.to_nat 3))
    /\ count_writes tr = Z.to_nat 3
    /\ (forall a, Write a ∈ tr <-> in_range sample_destination 3 a)
    /\ (forall a, Read a ∈ tr <-> in_range sample_source 3 a).
Proof.
  destruct (copy_n_completes mixed_backend generic_tag sample_source
              sample_destination 3 sample_memory) as (h' & Hrun & _).
  - lia.
  - apply sample_readable. lia.
  - apply sample_valid_destination. lia.
  - eexists _, h', _. split; [exact Hrun|].
    exact (copy_n_accesses_once mixed_backend _ _ _ _ _ _ _ _ Hrun).
Defined.

Lemma copy_accesses_once_witness :
  exists it h' tr,
    copy mixed_backend generic_tag sample_source (advance sample_source 3)
         sample_destination sample_memory
    = Some (it, h', tr)
    /\ tr ≡ₚ accesses_of (base sample_source) (base sample_destination)
             (seq 0 (Z.to_nat (distance sample_source (advance sample_source 3))))
    /\ (forall a, Write a ∈ tr
                  <-> in_range sample_destination
                               (distance sample_source (advance sample_source 3)) a)
    /\ (forall a, Read a ∈ tr
                  <-> in_range sample_source
                               (distance sample_source (advance sample_source 3)) a).
Proof.
  destruct (copy_completes mixed_backend generic_tag sample_source
              sample_destination 3 sample_memory) as (h' & Hrun & _).
  - lia.
  - apply sample_readable. lia.
  - apply sample_valid_destination. lia.
  - eexists _, h', _. split; [exact Hrun|].
    exact (copy_accesses_once mixed_backend _ _ _ _ _ _ _ _ Hrun).
Defined.

Lemma copy_onto_itself_witness :
  0 <= 4
  /\ readable sample_memory sample_source 4
  /\ base sample_alias = base sample_source
  /\ exists tr,
       copy mixed_backend generic_tag sample_source (advance sample_source 4)
            sample_alias sample_memory
       = Some (advance sample_alias 4, sample_memory, tr).
Proof.
  split; [lia|].
  split; [apply sample_readable; lia|].
  split; [reflexivity|].
  apply (copy_onto_itself mixed_backend generic_tag sample_source
           sample_alias 4 sample_memory).
  - lia.
  - apply sample_readable. lia.
  - reflexivity.
Defined.

Lemma copy_n_onto_itself_witness :
  0 <= 4
  /\ readable sample_memory sample_source 4
  /\ base sample_alias = base sample_source
  /\ exists tr,
       copy_n mixed_backend generic_tag sample_source 4
              sample_alias sample_memory
       = Some (advance sample_alias 4, sample_memory, tr).
Proof.
  split; [lia|].
  split; [apply sample_readable; lia|].
  split; [reflexivity|].
  apply (copy_n_onto_itself mixed_backend generic_tag sample_source
           sample_alias 4 sample_memory).
  - lia.
  - apply sample_readable. lia.
  - reflexivity.
Defined.

Lemma copy_chained_witness :
  0 <= 1 /\ 0 <= 3
  /\ readable sample_memory sample_source (1 + 3)
  /\ valid_destination sample_memory sample_destination (1 + 3)
  /\ order_independent sample_source sample_destination (1 + 3)
  /\ exists mid h1 h2 tr1 tr2 tr,
       copy mixed_backend generic_tag sample_source (advance sample_source 1)
            sample_destination sample_memory
       = Some (mid, h1, tr1)
       /\ copy mixed_backend generic_tag (advance sample_source 1)
               (advance (advance sample_source 1) 3) mid h1
          = Some (advance sample_destination (1 + 3), h2, tr2)
       /\ copy mixed_backend generic_tag sample_source
               (advance sample_source (1 + 3)) sample_destination sample_memory
          = Some (advance sample_destination (1 + 3), h2, tr).
Proof.
  split; [lia|]. split; [lia|].
  split; [apply sample_readable; lia|].
  split; [apply sample_valid_destination; lia|].
  split; [apply sample_order_independent; lia|].
  apply (copy_chained mixed_backend generic_tag sample_source
           sample_destination 1 3 sample_memory).
  - lia.
  - lia.
  - apply sample_readable. lia.
  - apply sample_valid_destination. lia.
  - apply sample_order_independent. lia.
Defined.

Lemma copy_n_chained_witness :
  0 <= 1 /\ 0 <= 3
  /\ readable sample_memory sample_source (1 + 3)
  /\ valid_destination sample_memory sample_destination (1 + 3)
  /\ order_independent sample_source sample_destination (1 + 3)
  /\ exists mid h1 h2 tr1 tr2 tr,
       copy_n mixed_backend generic_tag sample_source 1 sample_destination
              sample_memory
       = Some (mid, h1, tr1)
       /\ copy_n mixed_backend generic_tag (advance sample_source 1) 3 mid h1
          = Some (advance sample_destination (1 + 3), h2, tr2)
       /\ copy_n mixed_backend generic_tag sample_source (1 + 3)
                 sample_destination sample_memory
          = Some (advance sample_destination (1 + 3), h2, tr).
Proof.
  split; [lia|]. split; [lia|].
  split; [apply sample_readable; lia|].
  split; [apply sample_valid_destination; lia|].
  split; [apply sample_order_independent; lia|].
  apply (copy_n_chained mixed_backend generic_tag sample_source
           sample_destination 1 3 sample_memory).
  - lia.
  - lia.
  - apply sample_readable. lia.
  - apply sample_valid_destination. lia.
  - apply sample_order_independent. lia.
Defined.

Lemma copy_there_and_back_witness :
  0 <= 4
  /\ readable sample_memory sample_source 4
  /\ valid_destination sample_memory sample_destination 4
  /\ order_independent sample_source sample_destination 4
  /\ exists h1 tr1 tr2,
       copy mixed_backend generic_tag sample_source (advance sample_source 4)
            sample_destination sample_memory
       = Some (advance sample_destination 4, h1, tr1)
       /\ copy mixed_backend generic_tag sample_destination
               (advance sample_destination 4) sample_source h1
          = Some (advance sample_source 4, h1, tr2)
       /\ forall k, 0 <= k < 4 ->
            h1 !! (base sample_source + k) = sample_memory !! (base sample_source + k).
Proof.
  split; [lia|].
  split; [apply sample_readable; lia|].
  split; [apply sample_valid_destination; lia|].
  split; [apply sample_order_independent; lia|].
  apply (copy_there_and_back mixed_backend generic_tag sample_source
           sample_destination 4 sample_memory).
  - lia.
  - apply sample_readable. lia.
  - apply sample_valid_destination. lia.
  - apply sample_order_independent. lia.
Defined.

Lemma copy_n_repeated_witness :
  0 <= 4
  /\ readable sample_memory sample_source 4
  /\ valid_destination sample_memory sample_destination 4
  /\ order_independent sample_source sample_destination 4
  /\ exists h1 tr1 tr2,
       copy_n mixed_backend generic_tag sample_source 4 sample_destination
              sample_memory
       = Some (advance sample_destination 4, h1, tr1)
       /\ copy_n mixed_backend generic_tag sample_source 4 sample_destination h1
          = Some (advance sample_destination 4, h1, tr2).
Proof.
  split; [lia|].
  split; [apply sample_readable; lia|].
  split; [apply sample_valid_destination; lia|].
  split; [apply sample_order_independent; lia|].
  apply (copy_n_repeated mixed_backend generic_tag sample_source
           sample_destination 4 sample_memory).
  - lia.
  - apply sample_readable. lia.
  - apply sample_valid_destination. lia.
  - apply sample_order_independent. lia.
Defined.

Lemma copy_n_result_from_source_witness :
  0 <= 4
  /\ readable sample_memory sample_source 4
  /\ valid_destination sample_memory sample_destination 4
  /\ order_independent sample_source sample_destination 4
  /\ (forall k, 0 <= k < 4 ->
        sample_memory !! (base sample_source + k)
        = (<[12 := 7]> sample_memory) !! (base sample_source + k))
  /\ exists h1' h2' tr1 tr2,
       copy_n in_order_backend generic_tag sample_source 4 sample_destination
              sample_memory
       = Some (advance sample_destination 4, h1', tr1)
       /\ copy_n mixed_backend generic_tag sample_source 4 sample_destination
                 (<[12 := 7]> sample_memory)
          = Some (advance sample_destination 4, h2', tr2)
       /\ forall k, 0 <= k < 4 ->
            h1' !! (base sample_destination + k)
            = h2' !! (base sample_destination + k).
Proof.
  assert (Hagree : forall k, 0 <= k < 4 ->
            sample_memory !! (base sample_source + k)
            = (<[12 := 7]> sample_memory) !! (base sample_source + k)).
  { intros k Hk. symmetry. apply lookup_insert_ne. simpl. lia. }
  assert (Hdst2 : valid_destination (<[12 := 7]> sample_memory)
                                    sample_destination 4).
  { intros k Hk. apply lookup_insert_is_Some'. right.
    apply (sample_valid_destination 4); lia. }
  split; [lia|].
  split; [apply sample_readable; lia|].
  split; [apply sample_valid_destination; lia|].
  split; [apply sample_order_independent; lia|].
  split; [exact Hagree|].
  apply (copy_n_result_from_source in_order_backend mixed_backend generic_tag
           sample_source sample_destination 4
           sample_memory (<[12 := 7]> sample_memory)).
  - lia.
  - apply sample_readable. lia.
  - apply sample_valid_destination. lia.
  - exact Hdst2.
  - apply sample_order_independent. lia.
  - exact Hagree.
Defined.
